(** * StatWrap asset utilities (app/utils/asset.js): a shallow embedding

    The module [AssetUtil] of StatWrap is a collection of static functions
    over the project's asset tree.  This development embeds the functions
    that query, filter and re-root the tree, together with the parts of the
    JavaScript runtime they rely on (String methods, Node's [path] module in
    its POSIX flavour), and proves properties of them.

    Conventions of the embedding:
    - a JavaScript string is a [string]; indices are [Z] because the String
      methods answer -1 for "not found";
    - [null] and [undefined] in a field that holds a string or an object are
      [None];
    - a thrown [TypeError] is the [Throw] outcome of the [result] monad;
    - objects that the code mutates in place live in a [store] (section
      "Objects in a store"); the value-level functions describe the tree a
      call returns. *)

From Stdlib Require Import String Ascii List ZArith Lia Bool.
From stdpp Require Import base option list strings.

Import ListNotations.
Local Open Scope string_scope.
Local Open Scope Z_scope.

(** ** JavaScript values that may sit in a loosely typed field *)

Inductive jsval : Type :=
| JUndefined
| JNull
| JBool (b : bool)
| JNum (z : Z)
| JStr (s : string).

(** ToBoolean, as used by [!x] and [if (x)]. *)
Definition truthy (v : jsval) : bool :=
  match v with
  | JUndefined | JNull => false
  | JBool b => b
  | JNum z => negb (z =? 0)
  | JStr s => negb (String.eqb s "")
  end.

(** A string used as a condition: the empty string is falsy. *)
Definition str_truthy (s : string) : bool := negb (String.eqb s "").

(** A nullable string used as a condition ([!uri]). *)
Definition ostr_truthy (o : option string) : bool :=
  match o with
  | None => false
  | Some s => str_truthy s
  end.

(** ** Outcomes: a call returns or throws *)

Inductive result (A : Type) : Type :=
| Ok (a : A)
| Throw (e : string).
Arguments Ok {A} a.
Arguments Throw {A} e.

#[global] Instance result_ret : MRet result := fun _ a => Ok a.

#[global] Instance result_bind : MBind result := fun _ _ k r =>
  match r with
  | Ok a => k a
  | Throw e => Throw e
  end.

Definition ERR_INVALID_ARG_TYPE : string := "ERR_INVALID_ARG_TYPE".

(** ** String methods *)

Module JsString.

Definition len (s : string) : Z := Z.of_nat (String.length s).

(** [s.split(sep)] for a separator given as a class of characters: one
    character in [p] ends a piece.  The result is never empty. *)
Fixpoint split_on (p : ascii -> bool) (s : string) : list string :=
  match s with
  | EmptyString => [EmptyString]
  | String c r =>
      if p c then EmptyString :: split_on p r
      else match split_on p r with
           | [] => [String c EmptyString]
           | h :: t => String c h :: t
           end
  end.

(** [pieces.join(sep)] *)
Fixpoint join (sep : string) (l : list string) : string :=
  match l with
  | [] => ""
  | [x] => x
  | x :: r => x ++ sep ++ join sep r
  end.

(** [s.indexOf(pat)], searching from the offset [i] of [s] in the whole
    string. *)
Fixpoint indexOf_from (s pat : string) (i : Z) : Z :=
  if String.prefix pat s then i
  else match s with
       | EmptyString => -1
       | String _ r => indexOf_from r pat (i + 1)
       end.

Definition indexOf (s pat : string) : Z := indexOf_from s pat 0.

Definition includes (s pat : string) : bool := 0 <=? indexOf s pat.

(** [s.lastIndexOf(pat)] *)
Fixpoint lastIndexOf_from (s pat : string) (i : Z) : Z :=
  match s with
  | EmptyString => if String.prefix pat "" then i else -1
  | String _ r =>
      let k := lastIndexOf_from r pat (i + 1) in
      if 0 <=? k then k
      else if String.prefix pat s then i else -1
  end.

Definition lastIndexOf (s pat : string) : Z := lastIndexOf_from s pat 0.

Fixpoint take (n : nat) (s : string) : string :=
  match n, s with
  | S k, String c r => String c (take k r)
  | _, _ => ""
  end.

Fixpoint drop (n : nat) (s : string) : string :=
  match n, s with
  | S k, String _ r => drop k r
  | _, _ => s
  end.

Definition clamp (s : string) (i : Z) : Z := Z.max 0 (Z.min i (len s)).

(** [s.substring(a, b)]: both ends are clamped to [0, length] and swapped
    when they come in the wrong order. *)
Definition substring (s : string) (a b : Z) : string :=
  let a' := clamp s a in
  let b' := clamp s b in
  let lo := Z.min a' b' in
  let hi := Z.max a' b' in
  take (Z.to_nat (hi - lo)) (drop (Z.to_nat lo) s).

(** [s.slice(a)] for a non-negative start. *)
Definition slice_from (s : string) (a : Z) : string :=
  drop (Z.to_nat (clamp s a)) s.

(** White space removed by [trim] (the characters below 128 of the
    ECMAScript WhiteSpace and LineTerminator classes). *)
Definition is_ws (c : ascii) : bool :=
  let n := nat_of_ascii c in
  (Nat.eqb n 32 || Nat.eqb n 9 || Nat.eqb n 10 || Nat.eqb n 11
   || Nat.eqb n 12 || Nat.eqb n 13)%bool.

Fixpoint trimStart (s : string) : string :=
  match s with
  | String c r => if is_ws c then trimStart r else s
  | EmptyString => ""
  end.

(** [trimEnd]: a character is kept when it is not white space or when
    something is kept after it. *)
Fixpoint trimEnd (s : string) : string :=
  match s with
  | EmptyString => ""
  | String c r =>
      match trimEnd r with
      | EmptyString => if is_ws c then "" else String c ""
      | r' => String c r'
      end
  end.

Definition trim (s : string) : string := trimEnd (trimStart s).

End JsString.

(** ** Node's [path] module, POSIX flavour

    [path] is a built-in of the Node.js runtime, not a file of the
    repository.  The model follows its documented POSIX behaviour
    ([path.sep] is "/"): [resolve] walks its arguments from right to left
    until an absolute one is met, falls back on the working directory, and
    normalises the segments; [relative] resolves both paths and writes the
    way from one to the other.  Arguments that are not strings make both
    throw a [TypeError] ([ERR_INVALID_ARG_TYPE]) when they are validated;
    an argument is [None] when the caller passed [null] or [undefined]. *)

Module path.

Import JsString.

Definition sep : string := "/".

Definition is_sep (c : ascii) : bool := Ascii.eqb c "/"%char.

Definition isAbsolute (p : string) : bool :=
  match p with
  | String c _ => is_sep c
  | EmptyString => false
  end.

(** One segment met by [normalizeString]; [stack] holds the segments kept
    so far, the last one first. *)
Definition norm_step (allowAboveRoot : bool) (stack : list string)
    (seg : string) : list string :=
  if (String.eqb seg "" || String.eqb seg ".")%bool then stack
  else if String.eqb seg ".." then
    match stack with
    | top :: rest =>
        if String.eqb top ".."
        then (if allowAboveRoot then ".." :: stack else stack)
        else rest
    | [] => if allowAboveRoot then [".."] else []
    end
  else seg :: stack.

Definition normalizeSegments (allowAboveRoot : bool)
    (segs : list string) : list string :=
  rev (fold_left (norm_step allowAboveRoot) segs []).

Definition normalizeString (p : string) (allowAboveRoot : bool) : string :=
  join "/" (normalizeSegments allowAboveRoot (split_on is_sep p)).

(** The loop of [resolve]: [rargs] are the arguments still to visit, the
    last one first, with the working directory at the very end. *)
Fixpoint resolve_loop (rargs : list (option string))
    (resolvedPath : string) : result (string * bool) :=
  match rargs with
  | [] => Ok (resolvedPath, false)
  | None :: _ => Throw ERR_INVALID_ARG_TYPE
  | Some p :: rest =>
      if String.eqb p "" then resolve_loop rest resolvedPath
      else
        let resolvedPath := p ++ "/" ++ resolvedPath in
        if isAbsolute p then Ok (resolvedPath, true)
        else resolve_loop rest resolvedPath
  end.

Definition resolve (cwd : string) (args : list (option string))
    : result string :=
  r ← resolve_loop (rev args ++ [Some cwd]) "";
  let resolvedPath := normalizeString r.1 (negb r.2) in
  if r.2 then Ok ("/" ++ resolvedPath)
  else if String.eqb resolvedPath "" then Ok "." else Ok resolvedPath.

(** The segments of a resolved path. *)
Definition segments (p : string) : list string :=
  filter (fun s => s <> "") (split_on is_sep p).

Fixpoint strip_common (fs ts : list string) : list string * list string :=
  match fs, ts with
  | f :: fs', t :: ts' =>
      if String.eqb f t then strip_common fs' ts' else (fs, ts)
  | _, _ => (fs, ts)
  end.

(** The way from the resolved path [from] to the resolved path [to]: one
    ".." for each segment of [from] below the common ancestor, then the
    segments of [to] below it. *)
Definition relative_resolved (from to : string) : string :=
  let ft := strip_common (segments from) (segments to) in
  join "/" (map (fun _ => "..") ft.1 ++ ft.2).

Definition relative (cwd : string) (from to : option string)
    : result string :=
  match from, to with
  | Some f, Some t =>
      if String.eqb f t then Ok ""
      else
        f' ← resolve cwd [Some f];
        t' ← resolve cwd [Some t];
        if String.eqb f' t' then Ok "" else Ok (relative_resolved f' t')
  | _, _ => Throw ERR_INVALID_ARG_TYPE
  end.

(** [path.basename(p)] without a suffix: trailing separators are skipped and
    the answer is what stands after the separator before them, the empty
    string when [p] holds nothing but separators. *)
Definition basename (p : string) : string := List.last (segments p) "".

End path.

(** ** Data model *)

(** Modelled from the spec: [Constants.AssetType] (constants/constants.js is
    not among the sources); the spec gives the kinds of an asset as the
    closed set FILE, DIRECTORY, FOLDER, URL. *)
Inductive AssetType : Type := FILE | DIRECTORY | FOLDER | URL.

#[global] Instance AssetType_eq_dec : EqDecision AssetType.
Proof. solve_decision. Defined.

#[global] Instance jsval_eq_dec : EqDecision jsval.
Proof. solve_decision. Defined.

(** The values of the data model are those JSON can carry: a property that
    is missing and a property that is [undefined] are not told apart (both
    read as [undefined], and [JSON.stringify] writes neither), so the
    records below stand for an object and for its JSON copy alike.

    An entry of [asset.metadata]: [{ id, include, ... }].  [include] is read
    through [!entry.include], so any value is possible there; a missing field
    reads as [JUndefined]. *)
Record metadata_entry : Type := MetadataEntry {
  m_id : string;
  m_include : jsval;
  m_rest : list (string * jsval)
}.

(** A note; [note_uri] is its [uri] property, [note_data] the others. *)
Record note : Type := Note {
  note_data : list (string * jsval);
  note_uri : option string
}.

(** One asset object.  [C] is what the [children] array holds: assets
    themselves in a tree value, references in a store. *)
Record node (C : Type) : Type := Build_node {
  uri : option string;
  type : option AssetType;
  name : option string;
  attributes : option (list (string * jsval));
  metadata : option (list metadata_entry);
  notes : option (list note);
  children : option (list C)
}.
Arguments Build_node {C}.
Arguments uri {C}.
Arguments type {C}.
Arguments name {C}.
Arguments attributes {C}.
Arguments metadata {C}.
Arguments notes {C}.
Arguments children {C}.

(** [asset.uri = u] *)
Definition set_uri {C} (n : node C) (u : option string) : node C :=
  Build_node u (type n) (name n) (attributes n) (metadata n) (notes n)
    (children n).

(** [{ ...asset, children: cs }] *)
Definition set_children {C D} (n : node C) (cs : option (list D)) : node D :=
  Build_node (uri n) (type n) (name n) (attributes n) (metadata n) (notes n)
    cs.

(** The asset tree as a value. *)
Unset Elimination Schemes.
Inductive asset : Type := Asset (n : node asset).
Set Elimination Schemes.

Definition obj (a : asset) : node asset := let 'Asset n := a in n.

(** The depth of a tree: the number of nested calls a traversal needs. *)
Fixpoint depth (a : asset) : nat :=
  match children (obj a) with
  | None => 1
  | Some cs => S (foldr (fun c d => Nat.max (depth c) d) 0%nat cs)
  end.

(** The nodes of a tree, parents before children, children in order. *)
Fixpoint preorder (a : asset) : list asset :=
  a :: match children (obj a) with
       | None => []
       | Some cs => concat (map preorder cs)
       end.

(** What the first argument of [getExtensionFromUri] can be: nothing, a URI,
    or an object with a [uri] attribute. *)
Inductive item : Type :=
| ItemAbsent
| ItemString (s : string)
| ItemObject (a : asset).

(** ** The functions of [AssetUtil] *)

Section AssetUtil.

(** [process.cwd()], the directory [path.resolve] falls back on. *)
Variable cwd : string.

(** [FileHandler.id], the identifier of the file handler
    (services/assets/handlers/file.js is not among the sources). *)
Variable FileHandler_id : string.

Import JsString.

Definition getHandlerMetadata (handler : option string)
    (metadata : option (list metadata_entry)) : option metadata_entry :=
  match metadata with
  | None | Some [] => None
  | Some ms =>
      match handler with
      | None => None
      | Some h =>
          if (negb (str_truthy h) || String.eqb (trim h) "")%bool then None
          else find (fun m => String.eqb (m_id m) h) ms
      end
  end.

(** The body of [filterIncludedFileAssets] for an asset that is there. *)
Fixpoint filterIncludedFileAssets_obj (a : asset) : option asset :=
  let assetMetadata :=
    getHandlerMetadata (Some FileHandler_id) (metadata (obj a)) in
  if match assetMetadata with
     | Some m => negb (truthy (m_include m))
     | None => false
     end
  then None
  else
    match children (obj a) with
    | None => Some a
    | Some cs =>
        Some (Asset (set_children (obj a)
                       (Some (omap filterIncludedFileAssets_obj cs))))
    end.

Definition filterIncludedFileAssets (a : option asset) : option asset :=
  match a with
  | None => None
  | Some a => filterIncludedFileAssets_obj a
  end.

(** The body of [findDescendantAssetByUri] once [asset] and [uri] have
    passed the guard. *)
Fixpoint findDescendantAssetByUri_obj (a : asset) (u : string)
    : option asset :=
  if decide (uri (obj a) = Some u) then Some a
  else
    match children (obj a) with
    | None => None
    | Some cs =>
        (fix loop (cs : list asset) : option asset :=
           match cs with
           | [] => None
           | c :: rest =>
               match findDescendantAssetByUri_obj c u with
               | Some found => Some found
               | None => loop rest
               end
           end) cs
    end.

Definition findDescendantAssetByUri (a : option asset)
    (u : option string) : option asset :=
  match a, u with
  | Some a, Some u =>
      if str_truthy u then findDescendantAssetByUri_obj a u else None
  | _, _ => None
  end.

(** The [while] loop of [findAllDescendantAssetsByUri]; every round but
    the last shortens [assetUri], so the loop makes at most one round more
    than [assetUri] has characters. *)
Fixpoint findAllDescendantAssetsByUri_loop (fuel : nat)
    (assetUri rootUri : string) (descendantsList : list string)
    : option (list string) :=
  if String.eqb assetUri rootUri then Some descendantsList
  else
    match fuel with
    | O => None
    | S fuel =>
        let lastSep := lastIndexOf assetUri path.sep in
        if lastSep =? -1 then Some descendantsList
        else
          let assetUri := substring assetUri 0 lastSep in
          findAllDescendantAssetsByUri_loop fuel assetUri rootUri
            (if String.eqb assetUri
                  (substring rootUri 0 (indexOf rootUri path.sep))
             then descendantsList
             else descendantsList ++ [assetUri])
    end.

Definition findAllDescendantAssetsByUri (assetUri rootUri : option string)
    : option (list string) :=
  match assetUri, rootUri with
  | Some a, Some r =>
      if (str_truthy a && str_truthy r && includes a r
          && (indexOf a r =? 0))%bool
      then findAllDescendantAssetsByUri_loop (S (String.length a)) a r []
      else Some []
  | _, _ => Some []
  end.

(** [{ ...n, uri: asset.uri }] *)
Definition tag_note (u : option string) (n : note) : note :=
  Note (note_data n) u.

Fixpoint getAllNotes_obj (a : asset) : list note :=
  let notes :=
    match notes (obj a) with
    | Some ns => map (tag_note (uri (obj a))) ns
    | None => []
    end in
  match children (obj a) with
  | None => notes
  | Some cs => notes ++ concat (map getAllNotes_obj cs)
  end.

Definition getAllNotes (a : option asset) : list note :=
  match a with
  | None => []
  | Some a => getAllNotes_obj a
  end.

Definition shouldConvertPath {C} (a : option (node C)) : bool :=
  match a with
  | None => false
  | Some n =>
      bool_decide (type n = Some FILE) || bool_decide (type n = Some DIRECTORY)
      || bool_decide (type n = Some FOLDER)
  end.

Definition relativeToAbsolutePath {C} (projectPath : option string)
    (a : option (node C)) : result (option string) :=
  match a with
  | None => Ok None
  | Some n =>
      match uri n with
      | None => Ok None
      | Some u => p ← path.resolve cwd [projectPath; Some u]; Ok (Some p)
      end
  end.

Definition absoluteToRelativePath {C} (projectPath : option string)
    (a : option (node C)) : result (option string) :=
  match a with
  | None => Ok None
  | Some n =>
      match uri n with
      | None => Ok None
      | Some u =>
          if negb (path.isAbsolute u) then Ok None
          else
            relativePath ← path.relative cwd projectPath (Some u);
            Ok (Some (join "/" (split_on path.is_sep relativePath)))
      end
  end.

(** A conversion function, as passed to [recursivePathConversion]. *)
Definition workerFn : Type :=
  forall C, option string -> option (node C) -> result (option string).

Fixpoint _recursivePathConversion (projectPath : option string)
    (a : asset) (w : workerFn) : result asset :=
  n ← (if shouldConvertPath (Some (obj a))
       then u ← w _ projectPath (Some (obj a)); Ok (set_uri (obj a) u)
       else Ok (obj a));
  (* [asset.children]: the assignment to [asset.uri] left it as it was *)
  match children (obj a) with
  | None => Ok (Asset n)
  | Some cs =>
      cs' ← (fix loop (cs : list asset) : result (list asset) :=
               match cs with
               | [] => Ok []
               | c :: rest =>
                   c' ← _recursivePathConversion projectPath c w;
                   rest' ← loop rest;
                   Ok (c' :: rest')
               end) cs;
      Ok (Asset (set_children n (Some cs')))
  end.

(** The tree [recursivePathConversion] returns.  [JSON.parse] of
    [JSON.stringify] rebuilds the same tree value from fresh objects; what
    that means for the caller's objects is the subject of the store model
    below. *)
Definition recursivePathConversion (projectPath : option string)
    (assets : option asset) (w : workerFn) : result (option asset) :=
  match assets, projectPath with
  | Some a, Some _ =>
      a' ← _recursivePathConversion projectPath a w; Ok (Some a')
  | _, _ => Ok assets
  end.

Definition recursiveRelativeToAbsolutePath (projectPath : option string)
    (assets : option asset) : result (option asset) :=
  recursivePathConversion projectPath assets (@relativeToAbsolutePath).

Definition recursiveAbsoluteToRelativePath (projectPath : option string)
    (assets : option asset) : result (option asset) :=
  recursivePathConversion projectPath assets (@absoluteToRelativePath).

(** The array [_convertPathForArray] returns (its argument, updated). *)
Fixpoint _convertPathForArray_loop (projectPath : option string)
    (assets : list asset) (w : workerFn) : result (list asset) :=
  match assets with
  | [] => Ok []
  | a :: rest =>
      a' ← (if shouldConvertPath (Some (obj a))
            then u ← w _ projectPath (Some (obj a));
                 Ok (Asset (set_uri (obj a) u))
            else Ok a);
      rest' ← _convertPathForArray_loop projectPath rest w;
      Ok (a' :: rest')
  end.

Definition _convertPathForArray (projectPath : option string)
    (assets : option (list asset)) (w : workerFn)
    : result (option (list asset)) :=
  match assets with
  | None => Ok None
  | Some l => l' ← _convertPathForArray_loop projectPath l w; Ok (Some l')
  end.

Definition absoluteToRelativePathForArray (projectPath : option string)
    (assets : option (list asset)) : result (option (list asset)) :=
  _convertPathForArray projectPath assets (@absoluteToRelativePath).

Definition relativeToAbsolutePathForArray (projectPath : option string)
    (assets : option (list asset)) : result (option (list asset)) :=
  _convertPathForArray projectPath assets (@relativeToAbsolutePath).

(** The separators of the regular expression [/[\\/]/]. *)
Definition is_slash (c : ascii) : bool :=
  (Ascii.eqb c "/"%char || Ascii.eqb c "\"%char)%bool.

Definition getExtensionFromUri (it : item) : string :=
  let uri :=
    match it with
    | ItemAbsent => None
    | ItemString s => if str_truthy s then Some s else None
    | ItemObject a =>
        Some (if ostr_truthy (uri (obj a)) then default "" (uri (obj a))
              else "")
    end in
  match uri with
  | None => ""
  | Some uri =>
      let basename := List.last (split_on is_slash uri) "" in
      let pos := lastIndexOf basename "." in
      if (String.eqb basename "" || (pos <? 1))%bool then ""
      else slice_from basename (pos + 1)
  end.

End AssetUtil.

(** ** Objects in a store

    [recursivePathConversion] copies its argument with
    [JSON.parse(JSON.stringify(assets))] and then assigns to the [uri]
    attributes of the copy.  To say what that does to the caller's objects,
    objects live here in a store: a reference is an index into it, an asset
    object holds the references of its children, and an assignment updates
    the store at one index. *)

Definition loc : Type := nat.

Definition store : Type := list (node loc).

(** A run from a store returns a value, throws, or has not finished with
    the fuel it was given (a cyclic structure exhausts any fuel). *)
Inductive run (A : Type) : Type :=
| Ret (a : A) (s : store)
| Raise (e : string) (s : store)
| Stuck.
Arguments Ret {A} a s.
Arguments Raise {A} e s.
Arguments Stuck {A}.

(** [JSON.stringify(l)] followed by the tree it denotes: the value read off
    the store from the reference [l]. *)
Fixpoint stringify (fuel : nat) (s : store) (l : loc) : option asset :=
  match fuel with
  | O => None
  | S fuel =>
      match s !! l with
      | None => None
      | Some o =>
          match children o with
          | None => Some (Asset (set_children o None))
          | Some ls =>
              match mapM (stringify fuel s) ls with
              | None => None
              | Some cs => Some (Asset (set_children o (Some cs)))
              end
          end
      end
  end.

(** [JSON.parse]: every object of the tree is built anew, the children
    before their parent; the new object is put at the end of the store and
    its index is its reference. *)
Fixpoint parse (a : asset) (s : store) : loc * store :=
  match children (obj a) with
  | None => (List.length s, (s ++ [set_children (obj a) None])%list)
  | Some cs =>
      let r :=
        (fix go (cs : list asset) (s : store) : list loc * store :=
           match cs with
           | [] => ([], s)
           | c :: rest =>
               let r1 := parse c s in
               let r2 := go rest r1.2 in
               (r1.1 :: r2.1, r2.2)
           end) cs s in
      (List.length r.2, (r.2 ++ [set_children (obj a) (Some r.1)])%list)
  end.

Section AssetUtilStore.

Variable cwd : string.

(** [_recursivePathConversion] on the objects themselves.  The callee
    returns the reference it was given, so
    [asset.children[index] = _recursivePathConversion(...)] stores back the
    reference it has just read. *)
Fixpoint _recursivePathConversion_st (fuel : nat)
    (projectPath : option string) (l : loc) (w : workerFn) (s : store)
    : run loc :=
  match fuel with
  | O => Stuck
  | S fuel =>
      match s !! l with
      | None => Stuck
      | Some o =>
          let r :=
            if shouldConvertPath (Some o)
            then match w _ projectPath (Some o) with
                 | Ok u => Ret tt (<[l := set_uri o u]> s)
                 | Throw e => Raise e s
                 end
            else Ret tt s in
          match r with
          | Ret _ s =>
              match children o with
              | None => Ret l s
              | Some ls =>
                  (fix loop (ls : list loc) (s : store) : run loc :=
                     match ls with
                     | [] => Ret l s
                     | c :: rest =>
                         match _recursivePathConversion_st fuel projectPath
                                 c w s with
                         | Ret _ s => loop rest s
                         | Raise e s => Raise e s
                         | Stuck => Stuck
                         end
                     end) ls s
              end
          | Raise e s => Raise e s
          | Stuck => Stuck
          end
      end
  end.

Definition recursivePathConversion_st (fuel : nat)
    (projectPath : option string) (assets : option loc) (w : workerFn)
    (s : store) : run (option loc) :=
  match assets, projectPath with
  | Some l, Some _ =>
      match stringify fuel s l with
      | None => Stuck
      | Some t =>
          let assetsCopy := parse t s in
          match _recursivePathConversion_st fuel projectPath assetsCopy.1 w
                  assetsCopy.2 with
          | Ret l' s' => Ret (Some l') s'
          | Raise e s' => Raise e s'
          | Stuck => Stuck
          end
      end
  | _, _ => Ret assets s
  end.

Definition recursiveRelativeToAbsolutePath_st (fuel : nat)
    (projectPath : option string) (assets : option loc) (s : store)
    : run (option loc) :=
  recursivePathConversion_st fuel projectPath assets
    (@relativeToAbsolutePath cwd) s.

Definition recursiveAbsoluteToRelativePath_st (fuel : nat)
    (projectPath : option string) (assets : option loc) (s : store)
    : run (option loc) :=
  recursivePathConversion_st fuel projectPath assets
    (@absoluteToRelativePath cwd) s.

End AssetUtilStore.

(** [repr_in P s l a]: in the store [s] the reference [l] leads to the tree
    [a], through references that all satisfy [P]. *)
Unset Elimination Schemes.
Inductive repr_in (P : loc -> Prop) (s : store) : loc -> asset -> Prop :=
| repr_leaf l o a :
    P l -> s !! l = Some o -> children o = None ->
    obj a = set_children o None ->
    repr_in P s l a
| repr_node l o ls a cs :
    P l -> s !! l = Some o -> children o = Some ls ->
    obj a = set_children o (Some cs) ->
    Forall2 (repr_in P s) ls cs ->
    repr_in P s l a.

Set Elimination Schemes.

Definition repr : store -> loc -> asset -> Prop := repr_in (fun _ => True).

(** ** The other functions of [AssetUtil] *)

(** [object[key]] on the properties of an object: the value of the property,
    [undefined] when the object has none of that name. *)
Fixpoint get_prop (key : string) (props : list (string * jsval)) : jsval :=
  match props with
  | [] => JUndefined
  | (k, v) :: rest => if String.eqb k key then v else get_prop key rest
  end.

Section AssetUtilRest.

(** The file names of [Constants.StatWrapFiles] (constants/constants.js is
    not among the sources). *)
Variable StatWrapFiles_PROJECT : string.
Variable StatWrapFiles_LOG : string.
Variable StatWrapFiles_BASE_FOLDER : string.



Definition findChildAssetByUri (a : option asset) (u : option string)
    : option asset :=
  match a, u with
  | Some a, Some u =>
      if str_truthy u then
        match children (obj a) with
        | Some cs => List.find (fun c => bool_decide (uri (obj c) = Some u)) cs
        | None => None
        end
      else None
  | _, _ => None
  end.

(** [findEntryPointAssets] for an asset that is there; [entryPointList] is
    the one list every call pushes to. *)
Fixpoint findEntryPointAssets_obj (a : asset) (entryPointList : list asset)
    : list asset :=
  let entryPointList :=
    if match attributes (obj a) with
       | Some props => truthy (get_prop "entrypoint" props)
       | None => false
       end
    then (entryPointList ++ [a])%list
    else entryPointList in
  match children (obj a) with
  | None => entryPointList
  | Some cs =>
      fold_left (fun l child => findEntryPointAssets_obj child l) cs
        entryPointList
  end.

Definition findEntryPointAssets (a : option asset)
    (entryPointList : list asset) : list asset :=
  match a with
  | None => entryPointList
  | Some a => findEntryPointAssets_obj a entryPointList
  end.

Definition getAssetNameFromUri (it : item) : string :=
  let uri :=
    match it with
    | ItemAbsent => None
    | ItemString s => if str_truthy s then Some s else None
    | ItemObject a =>
        Some (if ostr_truthy (uri (obj a)) then default "" (uri (obj a))
              else "")
    end in
  match uri with
  | None => ""
  | Some uri => List.last (JsString.split_on path.is_sep uri) ""
  end.

Definition isExternalAsset (a : option asset) : bool :=
  match a with
  | None => false
  | Some a =>
      match type (obj a) with
      | None => false
      | Some t => bool_decide (t = URL)
      end
  end.


(** [_convertPathForArray] on the objects themselves: the loop assigns to
    the [uri] of the objects the array refers to. *)
Fixpoint _convertPathForArray_st_loop (projectPath : option string)
    (ls : list loc) (w : workerFn) (s : store) : run unit :=
  match ls with
  | [] => Ret tt s
  | l :: rest =>
      match s !! l with
      | None => Stuck
      | Some o =>
          if shouldConvertPath (Some o)
          then match w _ projectPath (Some o) with
               | Ok u =>
                   _convertPathForArray_st_loop projectPath rest w
                     (<[l := set_uri o u]> s)
               | Throw e => Raise e s
               end
          else _convertPathForArray_st_loop projectPath rest w s
      end
  end.

Definition _convertPathForArray_st (projectPath : option string)
    (assets : option (list loc)) (w : workerFn) (s : store)
    : run (option (list loc)) :=
  match assets with
  | None => Ret None s
  | Some ls =>
      match _convertPathForArray_st_loop projectPath ls w s with
      | Ret _ s' => Ret (Some ls) s'
      | Raise e s' => Raise e s'
      | Stuck => Stuck
      end
  end.

End AssetUtilRest.

(** ** Vocabulary of the statements *)

(** The notes stored on one asset, each carrying the asset's [uri]. *)
Definition own_notes (a : asset) : list note :=
  map (fun n => Note (note_data n) (uri (obj a)))
    (default [] (notes (obj a))).

(** The children of an asset, none when the attribute is missing. *)
Definition kids (a : asset) : list asset := default [] (children (obj a)).

(** [has_uri u a]: the asset's [uri] is exactly the string [u]. *)
Definition has_uri (u : string) (a : asset) : bool :=
  bool_decide (uri (obj a) = Some u).

(** [excluded fid a]: the metadata of [a] has an entry of the handler [fid]
    (the first one counts) whose [include] is falsy. *)
Definition excluded (fid : string) (a : asset) : bool :=
  match getHandlerMetadata (Some fid) (metadata (obj a)) with
  | Some m => negb (truthy (m_include m))
  | None => false
  end.

(** [survives fid a]: [filterIncludedFileAssets] keeps [a]. *)
Definition survives (fid : string) (a : asset) : bool :=
  bool_decide (is_Some (filterIncludedFileAssets fid (Some a))).

(** [free_of p s]: no character of [s] is in the class [p]. *)
Fixpoint free_of (p : ascii -> bool) (s : string) : bool :=
  match s with
  | EmptyString => true
  | String c r => negb (p c) && free_of p r
  end.

Definition is_dot (c : ascii) : bool := Ascii.eqb c "."%char.

(** [final_segment u seg]: [seg] is what follows the last forward or back
    slash of [u] (all of [u] when it has none). *)
Definition final_segment (u seg : string) : Prop :=
  free_of is_slash seg = true
  /\ (u = seg \/ exists pre d, is_slash d = true /\ u = pre +:+ String d seg).

(** [under root segs]: the path [root/s1/.../sn]. *)
Definition under (root : string) (segs : list string) : string :=
  fold_left (fun acc s => acc +:+ "/" +:+ s) segs root.

(** [paths_from root segs]: [root], [root/s1], ..., [root/s1/.../s(n-1)]:
    the ancestors of [under root segs] from [root] on, outermost first. *)
Fixpoint paths_from (root : string) (segs : list string) : list string :=
  match segs with
  | [] => []
  | s :: rest => root :: paths_from (root +:+ "/" +:+ s) rest
  end.

(** A function that may throw, applied to the elements of a list from left
    to right. *)
Fixpoint mapR {A B} (f : A -> result B) (l : list A) : result (list B) :=
  match l with
  | [] => Ok []
  | x :: rest => y ← f x; ys ← mapR f rest; Ok (y :: ys)
  end.

(** A node that path conversion touches: [shouldConvertPath] holds. *)
Definition convertible (a : asset) : bool := shouldConvertPath (Some (obj a)).

(** The tree with the [uri] of every convertible node set to null. *)
Fixpoint with_null_uris (a : asset) : asset :=
  let n := if convertible a then set_uri (obj a) None else obj a in
  Asset (match children (obj a) with
         | None => n
         | Some cs => set_children n (Some (map with_null_uris cs))
         end).

(** A path segment that normalisation keeps as it is. *)
Definition clean_segment (s : string) : bool :=
  negb (String.eqb s "") && negb (String.eqb s ".")
  && negb (String.eqb s "..") && free_of path.is_sep s.

(** The segments of the normal form of an absolute path. *)
Definition root_segments (R : string) : list string :=
  path.normalizeSegments false (JsString.split_on path.is_sep R).

(** [canonical_under R u]: [u] is an absolute path in normal form (no empty,
    "." or ".." segment, no trailing separator) that lies under the
    directory [R]: its segments start with those of [R]. *)
Definition canonical_under (R u : string) : Prop :=
  exists ts, Forall (fun s => clean_segment s = true) ts
             /\ u = "/" +:+ JsString.join "/" (root_segments R ++ ts).

(** The number of nodes of a tree: the number of objects [parse] builds. *)
Fixpoint size (a : asset) : nat :=
  S (match children (obj a) with
     | None => 0
     | Some cs => foldr (fun c n => (size c + n)%nat) 0%nat cs
     end).

(** The references of the roots of trees of the given sizes built one after
    the other from the index [base]. *)
Fixpoint child_locs (base : nat) (sizes : list nat) : list loc :=
  match sizes with
  | [] => []
  | n :: rest => (base + n - 1)%nat :: child_locs (base + n) rest
  end.

(** The objects [parse] builds for a tree when the store has [base] objects:
    those of the children in order, then the root. *)
Fixpoint region (base : nat) (a : asset) : list (node loc) :=
  match children (obj a) with
  | None => [set_children (obj a) None]
  | Some cs =>
      ((fix go (cs : list asset) (base : nat) : list (node loc) :=
          match cs with
          | [] => []
          | c :: rest => region base c ++ go rest (base + size c)%nat
          end) cs base
       ++ [set_children (obj a) (Some (child_locs base (map size cs)))])%list
  end.

Fixpoint region_list (base : nat) (cs : list asset) : list (node loc) :=
  match cs with
  | [] => []
  | c :: rest => (region base c ++ region_list (base + size c) rest)%list
  end.

(** The loop of [parse] over the children. *)
Fixpoint parse_list (cs : list asset) (s : store) : list loc * store :=
  match cs with
  | [] => ([], s)
  | c :: rest =>
      let r1 := parse c s in
      let r2 := parse_list rest r1.2 in
      (r1.1 :: r2.1, r2.2)
  end.

(** The loop of [_recursivePathConversion_st] over the children of [l]. *)
Fixpoint convert_children_st (fuel : nat) (pp : option string) (w : workerFn)
    (l : loc) (ls : list loc) (s : store) : run loc :=
  match ls with
  | [] => Ret l s
  | c :: rest =>
      match _recursivePathConversion_st fuel pp c w s with
      | Ret _ s => convert_children_st fuel pp w l rest s
      | Raise e s => Raise e s
      | Stuck => Stuck
      end
  end.

(** A conversion function that looks at nothing but the [uri] of the asset
    it is given, as the two conversion functions of the module do. *)
Definition reads_uri_only (w : workerFn) : Prop :=
  forall (C D : Type) (pp : option string) (n : node C) (m : node D),
    uri n = uri m -> w C pp (Some n) = w D pp (Some m).

(** [unchanged s s']: every object of [s] is in [s'] at the same reference
    with the same attributes. *)
Definition unchanged (s s' : store) : Prop :=
  forall (k : loc) (o : node loc), s !! k = Some o -> s' !! k = Some o.

(** What the in-place conversion of a freshly built copy of [t] has to do
    with the value-level conversion of [t]: when the latter returns [t'],
    the run returns and has turned the region of [t] into the region of
    [t']; when it throws, the run throws the same error; in both cases the
    store is touched in the region only. *)
Definition tracks (pp : option string) (w : workerFn) (t : asset)
    (fuel : nat) : Prop :=
  forall (s0 tl : store),
    match _recursivePathConversion pp t w with
    | Ok t' =>
        _recursivePathConversion_st fuel pp (length s0 + size t - 1)%nat w
          (s0 ++ region (length s0) t ++ tl)%list
        = Ret (length s0 + size t - 1)%nat
            (s0 ++ region (length s0) t' ++ tl)%list
        /\ size t' = size t
    | Throw e =>
        exists r', length r' = size t
          /\ _recursivePathConversion_st fuel pp
               (length s0 + size t - 1)%nat w
               (s0 ++ region (length s0) t ++ tl)%list
             = Raise e (s0 ++ r' ++ tl)%list
    end.

(** [is_entrypoint a]: [a.attributes.entrypoint] is truthy. *)
Definition is_entrypoint (a : asset) : bool :=
  match attributes (obj a) with
  | Some props => truthy (get_prop "entrypoint" props)
  | None => false
  end.

(** The tree with [f] applied to the [uri] of every convertible node. *)
Fixpoint map_uris (f : option string -> option string) (a : asset) : asset :=
  let n :=
    if convertible a then set_uri (obj a) (f (uri (obj a))) else obj a in
  Asset (match children (obj a) with
         | None => n
         | Some cs => set_children n (Some (map (map_uris f) cs))
         end).

(** What a conversion function answers for an asset with the given [uri]
    (null when it throws). *)
Definition worker_on_uri (w : workerFn) (pp : option string)
    (u : option string) : option string :=
  match w asset pp (Some (Build_node u None None None None None None)) with
  | Ok r => r
  | Throw _ => None
  end.

(** An absolute path in normal form. *)
Definition canonical (u : string) : Prop :=
  exists ts, Forall (fun s => clean_segment s = true) ts
             /\ u = "/" +:+ JsString.join "/" ts.

(** The attributes of a node other than [uri] and [children]. *)
Definition payload (a : asset) :=
  (type (obj a), name (obj a), attributes (obj a), metadata (obj a),
   notes (obj a)).

(** ** Sample data *)

Definition file (u : string) : asset :=
  Asset (Build_node (Some u) (Some FILE) None None None None None).

Definition link (u : string) : asset :=
  Asset (Build_node (Some u) (Some URL) None None None None None).

Definition directory (u : string) (cs : list asset) : asset :=
  Asset (Build_node (Some u) (Some DIRECTORY) None None None None (Some cs)).

(** A file with handler metadata. *)
Definition file_with (u : string) (md : list metadata_entry) : asset :=
  Asset (Build_node (Some u) (Some FILE) None None (Some md) None None).

Definition sample_cwd : string := "/home/user".

Definition sample_handler : string := "StatWrap.FileHandler".

(** A project in absolute form under "/proj". *)
Definition sample_project : asset :=
  directory "/proj"
    [file "/proj/a.txt";
     link "https://example.org/data";
     directory "/proj/src" [file "/proj/src/main.py"]].

(** A project already in relative form. *)
Definition sample_relative : asset :=
  directory "src" [file "src/main.py"; link "https://example.org/data"].

(** The same kinds of node with a null [uri]. *)
Definition file_null : asset :=
  Asset (Build_node None (Some FILE) None None None None None).

Definition directory_null (cs : list asset) : asset :=
  Asset (Build_node None (Some DIRECTORY) None None None None (Some cs)).

(** A store holding the tree ["/proj" -> "/proj/a.txt"] at reference 1. *)
Definition sample_store : store :=
  [Build_node (Some "/proj/a.txt") (Some FILE) None None None None None;
   Build_node (Some "/proj") (Some DIRECTORY) None None None None (Some [0%nat])].

Definition sample_stored : asset := directory "/proj" [file "/proj/a.txt"].


(** A script marked as an entry point, in a directory. *)
Definition sample_script : asset :=
  Asset (Build_node (Some "/proj/run.py") (Some FILE) None
           (Some [("entrypoint", JBool true)]) None None None).

Definition sample_with_entry : asset :=
  directory "/proj" [file "/proj/a.txt"; sample_script].

(** A directory with one file the handler excludes and one it has not
    seen. *)
Definition sample_mixed : asset :=
  directory "/proj"
    [file_with "/proj/a.txt" [MetadataEntry sample_handler (JBool false) []];
     file "/proj/b.txt"].


(** [sample_store] after the conversion of its two objects to relative
    form. *)
Definition sample_store_relative : store :=
  [Build_node (Some "a.txt") (Some FILE) None None None None None;
   Build_node (Some "") (Some DIRECTORY) None None None None (Some [0%nat])].

(** * Properties *)

(** From here on [++] appends lists; strings are appended with [+:+]. *)
Local Open Scope list_scope.

(** ** Induction over asset trees *)

Lemma asset_ind' (P : asset -> Prop) :
  (forall n, (forall cs, children n = Some cs -> Forall P cs) -> P (Asset n)) ->
  forall a, P a.
Proof.
  intros step. fix IH 1. intros [n]. apply step.
  destruct n as [u t nm at' md ns [cs|]]; simpl; intros cs' E; [|discriminate].
  injection E as <-. induction cs as [|c cs IHcs]; constructor; auto.
Qed.

(** ** Notes *)

Section Notes.

Lemma getAllNotes_obj_unfold (a : asset) :
  getAllNotes_obj a = own_notes a ++ concat (map getAllNotes_obj (kids a)).
Proof.
  destruct a as [n]. unfold own_notes, kids.
  destruct n as [u t nm at' md ns cs]; simpl.
  destruct ns as [ns|], cs as [cs|]; simpl; rewrite ?app_nil_r; reflexivity.
Qed.

Lemma preorder_unfold (a : asset) :
  preorder a = a :: concat (map preorder (kids a)).
Proof. destruct a as [n]. unfold kids. simpl. destruct (children n); reflexivity. Qed.

Lemma getAllNotes_obj_preorder (a : asset) :
  getAllNotes_obj a = concat (map own_notes (preorder a)).
Proof.
  induction a as [n IH] using asset_ind'.
  rewrite getAllNotes_obj_unfold, preorder_unfold. simpl. f_equal.
  unfold kids. simpl. destruct (children n) as [cs|] eqn:E; [|reflexivity].
  specialize (IH cs eq_refl). clear E. simpl.
  induction IH as [|c cs Hc _ IHcs]; [reflexivity|].
  simpl. rewrite map_app, concat_app, Hc, IHcs. reflexivity.
Qed.

(** C6: [getAllNotes] is the pre-order flattening of the notes: the notes
    of the asset itself, in their stored order and each carrying the uri
    of the asset that owns it, then the flattened notes of each child in
    child order; for an absent asset it is empty. *)
Theorem getAllNotes_preorder :
  getAllNotes None = []
  /\ (forall a : asset,
        getAllNotes (Some a)
        = map (fun n => Note (note_data n) (uri (obj a)))
            (default [] (notes (obj a)))
          ++ concat (map (fun c => getAllNotes (Some c)) (kids a)))
  /\ (forall a : asset,
        getAllNotes (Some a) = concat (map own_notes (preorder a))).
Proof.
  split; [reflexivity|]. split; intros a; simpl.
  - apply getAllNotes_obj_unfold.
  - apply getAllNotes_obj_preorder.
Qed.

End Notes.

(** ** Search by URI *)

Section Search.

Lemma findDescendantAssetByUri_obj_unfold (a : asset) (u : string) :
  findDescendantAssetByUri_obj a u
  = if has_uri u a then Some a
    else List.fold_right
           (fun c r => match findDescendantAssetByUri_obj c u with
                       | Some found => Some found
                       | None => r
                       end) None (kids a).
Proof.
  destruct a as [n]. unfold has_uri, kids. simpl.
  destruct (decide (uri n = Some u)) as [E|E].
  - rewrite bool_decide_eq_true_2; auto.
  - rewrite bool_decide_eq_false_2; auto.
    destruct (children n) as [cs|]; [|reflexivity]. simpl.
    induction cs as [|c cs IH]; [reflexivity|]. simpl. rewrite IH. reflexivity.
Qed.

Lemma find_app_first {A} (f : A -> bool) (l1 l2 : list A) :
  List.find f (l1 ++ l2)
  = match List.find f l1 with Some x => Some x | None => List.find f l2 end.
Proof.
  induction l1 as [|x l1 IH]; simpl; [reflexivity|].
  destruct (f x); auto.
Qed.

Lemma find_none_Forall {A} (f : A -> bool) (l : list A) :
  List.find f l = None <-> Forall (fun x => f x = false) l.
Proof.
  induction l as [|x l IH]; simpl.
  - split; auto.
  - destruct (f x) eqn:E.
    + split; [discriminate|]. intros H. inversion H; congruence.
    + rewrite IH. split; [constructor; auto|]. intros H. inversion H; auto.
Qed.

Lemma findDescendantAssetByUri_obj_find (a : asset) (u : string) :
  findDescendantAssetByUri_obj a u = List.find (has_uri u) (preorder a).
Proof.
  induction a as [n IH] using asset_ind'.
  rewrite findDescendantAssetByUri_obj_unfold, preorder_unfold. simpl.
  destruct (has_uri u (Asset n)); [reflexivity|].
  unfold kids. simpl. destruct (children n) as [cs|]; [|reflexivity].
  specialize (IH cs eq_refl). simpl.
  induction IH as [|c cs Hc _ IHcs]; [reflexivity|].
  simpl. rewrite find_app_first, Hc, IHcs. reflexivity.
Qed.

(** C7: [findDescendantAssetByUri] answers the asset itself when its uri
    is the searched one (so searching a root for its own uri answers the
    root), otherwise the first match of a depth-first search of the
    children in order (the first asset with that uri in pre-order), and
    null when the asset or the URI is absent (for the URI: null, undefined
    or the empty string) or when no asset of the subtree has exactly that
    uri. *)
Theorem findDescendantAssetByUri_spec :
  (forall (a : option asset) (u : option string),
     findDescendantAssetByUri a u
     = match a, u with
       | Some a, Some u =>
           if String.eqb u "" then None
           else if has_uri u a then Some a
                else List.find (has_uri u) (concat (map preorder (kids a)))
       | _, _ => None
       end)
  /\ (forall (root : asset) (u : string),
        uri (obj root) = Some u -> u <> "" ->
        findDescendantAssetByUri (Some root) (uri (obj root)) = Some root)
  /\ (forall (a : asset) (u : string),
        u <> "" ->
        (findDescendantAssetByUri (Some a) (Some u) = None <->
         Forall (fun x => uri (obj x) <> Some u) (preorder a))).
Proof.
  assert (H1 : forall (a : option asset) (u : option string),
     findDescendantAssetByUri a u
     = match a, u with
       | Some a, Some u =>
           if String.eqb u "" then None
           else if has_uri u a then Some a
                else List.find (has_uri u) (concat (map preorder (kids a)))
       | _, _ => None
       end).
  { intros [a|] [u|]; try reflexivity.
    unfold findDescendantAssetByUri, str_truthy.
    destruct (String.eqb_spec u "") as [->|Hu]; simpl; [reflexivity|].
    rewrite findDescendantAssetByUri_obj_find, preorder_unfold. simpl.
    destruct (has_uri u a); reflexivity. }
  split; [exact H1|]. split.
  - intros root u Eu Hu. rewrite H1, Eu.
    destruct (String.eqb_spec u ""); [contradiction|].
    unfold has_uri. rewrite bool_decide_eq_true_2 by exact Eu. reflexivity.
  - intros a u Hu. unfold findDescendantAssetByUri, str_truthy.
    destruct (String.eqb_spec u ""); [contradiction|]. simpl.
    rewrite findDescendantAssetByUri_obj_find, find_none_Forall.
    unfold has_uri. split; intros H; (eapply Forall_impl; [exact H|]);
      intros x Hx.
    + apply bool_decide_eq_false in Hx. exact Hx.
    + apply bool_decide_eq_false. exact Hx.
Qed.

End Search.

(** ** The inclusion filter *)

Section Inclusion.

Variable fid : string.

Lemma filterIncludedFileAssets_obj_unfold (a : asset) :
  filterIncludedFileAssets_obj fid a
  = if excluded fid a then None
    else Some match children (obj a) with
              | None => a
              | Some cs =>
                  Asset (set_children (obj a)
                           (Some (omap (filterIncludedFileAssets_obj fid) cs)))
              end.
Proof.
  destruct a as [n]. unfold excluded. simpl.
  destruct (getHandlerMetadata (Some fid) (metadata n)) as [m|];
    [destruct (negb (truthy (m_include m)))|];
    try reflexivity; destruct (children n); reflexivity.
Qed.

Lemma filter_None_iff (a : asset) :
  filterIncludedFileAssets fid (Some a) = None <-> excluded fid a = true.
Proof.
  simpl. rewrite filterIncludedFileAssets_obj_unfold.
  destruct (excluded fid a); split; congruence.
Qed.

Lemma excluded_iff (a : asset) :
  excluded fid a = true <->
  exists m, getHandlerMetadata (Some fid) (metadata (obj a)) = Some m
            /\ truthy (m_include m) = false.
Proof.
  unfold excluded.
  destruct (getHandlerMetadata (Some fid) (metadata (obj a))) as [m|].
  - rewrite negb_true_iff. split; [eauto|].
    intros (m' & E & H). injection E as ->. exact H.
  - split; [discriminate|]. intros (m' & E & _). discriminate.
Qed.

(** The children that survive are, in the original order, the filtered
    versions of the original children that are kept. *)
Lemma omap_filter_Forall2 (cs : list asset) :
  Forall2 (fun c c' => filterIncludedFileAssets fid (Some c) = Some c')
    (List.filter (survives fid) cs)
    (omap (filterIncludedFileAssets_obj fid) cs).
Proof.
  induction cs as [|c cs IH]; simpl; [constructor|].
  unfold survives at 1. simpl.
  destruct (filterIncludedFileAssets_obj fid c) as [c'|] eqn:E.
  - rewrite bool_decide_eq_true_2 by eauto. constructor; auto.
  - rewrite bool_decide_eq_false_2; [exact IH|]. intros [x Hx]. discriminate.
Qed.

Lemma excluded_set_children (a : asset) cs :
  excluded fid (Asset (set_children (obj a) cs)) = excluded fid a.
Proof. destruct a as [n]. reflexivity. Qed.

Lemma filter_no_excluded (a r : asset) :
  filterIncludedFileAssets_obj fid a = Some r ->
  Forall (fun x => excluded fid x = false) (preorder r).
Proof.
  revert r. induction a as [n IH] using asset_ind'. intros r.
  rewrite filterIncludedFileAssets_obj_unfold.
  destruct (excluded fid (Asset n)) eqn:Ex; [discriminate|].
  intros [= <-]. simpl obj.
  destruct (children n) as [cs|] eqn:Ec.
  - rewrite preorder_unfold. constructor.
    { rewrite (excluded_set_children (Asset n)). exact Ex. }
    unfold kids. simpl. specialize (IH cs eq_refl). clear Ec Ex.
    induction IH as [|c cs Hc _ IHcs]; simpl; [constructor|].
    destruct (filterIncludedFileAssets_obj fid c) as [c'|] eqn:E; [|exact IHcs].
    simpl. apply Forall_app. split; auto.
  - rewrite preorder_unfold. constructor; [exact Ex|].
    unfold kids. simpl. rewrite Ec. constructor.
Qed.

(** C3 (as amended): [filterIncludedFileAssets] drops an asset, and with
    it its whole subtree, exactly when the FileHandler metadata entry found
    on it has a falsy [include] -- [false], or a missing or otherwise falsy
    value -- whatever the metadata of its descendants; when that [include]
    is a boolean this is exactly [include = false].  An asset with no
    FileHandler entry survives.  A survivor without [children] is returned
    as it is; otherwise its children are the filtered versions of the
    children that survive, in their original order.  No asset of the
    result is an excluded one. *)
Theorem filterIncludedFileAssets_spec (a : asset) :
  (filterIncludedFileAssets fid (Some a) = None <->
   exists m, getHandlerMetadata (Some fid) (metadata (obj a)) = Some m
             /\ truthy (m_include m) = false)
  /\ (forall m b,
        getHandlerMetadata (Some fid) (metadata (obj a)) = Some m ->
        m_include m = JBool b ->
        (filterIncludedFileAssets fid (Some a) = None <-> b = false))
  /\ (getHandlerMetadata (Some fid) (metadata (obj a)) = None ->
      is_Some (filterIncludedFileAssets fid (Some a)))
  /\ (forall r,
        filterIncludedFileAssets fid (Some a) = Some r ->
        match children (obj a) with
        | None => r = a
        | Some cs =>
            exists cs',
              obj r = set_children (obj a) (Some cs')
              /\ Forall2
                   (fun c c' => filterIncludedFileAssets fid (Some c) = Some c')
                   (List.filter (survives fid) cs) cs'
        end)
  /\ (forall r,
        filterIncludedFileAssets fid (Some a) = Some r ->
        Forall (fun x => excluded fid x = false) (preorder r)).
Proof.
  split; [|split; [|split; [|split]]].
  - rewrite filter_None_iff. apply excluded_iff.
  - intros m b Em Eb. rewrite filter_None_iff. unfold excluded.
    rewrite Em, Eb. destruct b; simpl; split; congruence.
  - intros E. simpl. rewrite filterIncludedFileAssets_obj_unfold.
    unfold excluded. rewrite E. eauto.
  - intros r. simpl. rewrite filterIncludedFileAssets_obj_unfold.
    destruct (excluded fid a); [discriminate|]. intros [= <-].
    destruct (children (obj a)) as [cs|]; [|reflexivity].
    eexists. split; [reflexivity|]. apply omap_filter_Forall2.
  - intros r. simpl. apply filter_no_excluded.
Qed.

Lemma trim_empty_of_empty (s : string) :
  JsString.trim s <> "" -> s <> "".
Proof. intros H ->. apply H. reflexivity. Qed.

(** The entry [getHandlerMetadata] finds: the first one with the id. *)
Lemma getHandlerMetadata_first (pre post : list metadata_entry)
    (m : metadata_entry) :
  JsString.trim fid <> "" ->
  Forall (fun x => m_id x <> fid) pre ->
  m_id m = fid ->
  getHandlerMetadata (Some fid) (Some (pre ++ m :: post)) = Some m.
Proof.
  intros Ht Hpre Hm. unfold getHandlerMetadata.
  assert (Hne : fid <> "") by (apply trim_empty_of_empty; exact Ht).
  unfold str_truthy.
  destruct (String.eqb_spec fid "") as [?|_]; [contradiction|].
  destruct (String.eqb_spec (JsString.trim fid) "") as [?|_]; [contradiction|].
  simpl.
  assert (E : find (fun x => String.eqb (m_id x) fid) (pre ++ m :: post)
              = Some m).
  { induction Hpre as [|x pre Hx _ IH]; simpl.
    - rewrite Hm, String.eqb_refl. reflexivity.
    - destruct (String.eqb_spec (m_id x) fid); [contradiction|exact IH]. }
  destruct (pre ++ m :: post) eqn:El; [|exact E].
  destruct pre; discriminate.
Qed.

(** C10: an asset whose metadata holds a FileHandler entry (the first of
    that id) without an [include] field, or with an [include] that is
    falsy without being [false], is dropped by [filterIncludedFileAssets]
    together with its subtree: the result is null whatever its children
    are. *)
Theorem filterIncludedFileAssets_missing_include
    (a : asset) (pre post : list metadata_entry) (m : metadata_entry) :
  JsString.trim fid <> "" ->
  metadata (obj a) = Some (pre ++ m :: post) ->
  Forall (fun x => m_id x <> fid) pre ->
  m_id m = fid ->
  truthy (m_include m) = false ->
  filterIncludedFileAssets fid (Some a) = None.
Proof.
  intros Ht Emd Hpre Hm Hinc. apply filter_None_iff. unfold excluded.
  rewrite Emd, (getHandlerMetadata_first pre post m Ht Hpre Hm), Hinc.
  reflexivity.
Qed.

End Inclusion.

(** ** Facts about the String methods *)

Section StringFacts.

Import JsString.

Lemma append_cons (c : ascii) (a b : string) :
  String c a +:+ b = String c (a +:+ b).
Proof. reflexivity. Qed.

Lemma append_nil_l (b : string) : "" +:+ b = b.
Proof. reflexivity. Qed.

Lemma append_nil_r (s : string) : s +:+ "" = s.
Proof.
  induction s as [|c s IH]; [reflexivity|]. rewrite append_cons, IH. reflexivity.
Qed.

Lemma append_assoc (a b c : string) : (a +:+ b) +:+ c = a +:+ (b +:+ c).
Proof.
  induction a as [|x a IH]; [reflexivity|].
  rewrite !append_cons, IH. reflexivity.
Qed.

Lemma length_append (a b : string) :
  String.length (a +:+ b) = (String.length a + String.length b)%nat.
Proof.
  induction a as [|x a IH]; [reflexivity|].
  rewrite append_cons. simpl. rewrite IH. reflexivity.
Qed.

Lemma len_append (a b : string) : len (a +:+ b) = len a + len b.
Proof. unfold len. rewrite length_append. lia. Qed.

Lemma len_nonneg (s : string) : 0 <= len s.
Proof. unfold len. lia. Qed.

Lemma split_on_nonempty (p : ascii -> bool) (s : string) :
  split_on p s <> [].
Proof.
  destruct s as [|c r]; simpl; [discriminate|].
  destruct (p c); [discriminate|]. destruct (split_on p r); discriminate.
Qed.

Lemma split_on_free (p : ascii -> bool) (s : string) :
  free_of p s = true -> split_on p s = [s].
Proof.
  induction s as [|c r IH]; simpl; [reflexivity|].
  intros [Hc Hr]%andb_true_iff. apply negb_true_iff in Hc.
  rewrite Hc, IH by exact Hr. reflexivity.
Qed.

(** Splitting at a separator splits the list of pieces. *)
Lemma split_on_sep (p : ascii -> bool) (a b : string) (d : ascii) :
  p d = true ->
  split_on p (a +:+ String d b) = split_on p a ++ split_on p b.
Proof.
  intros Hd. induction a as [|c a IH].
  - rewrite append_nil_l. simpl. rewrite Hd. reflexivity.
  - rewrite append_cons. simpl. destruct (p c); [now rewrite IH|]. rewrite IH.
    pose proof (split_on_nonempty p a) as Hne.
    destruct (split_on p a); [contradiction|]. reflexivity.
Qed.

Lemma last_app_nonempty {A} (l1 l2 : list A) (d : A) :
  l2 <> [] -> List.last (l1 ++ l2) d = List.last l2 d.
Proof.
  intros H. induction l1 as [|x l1 IH]; [reflexivity|].
  simpl. destruct (l1 ++ l2) eqn:E; [|exact IH].
  destruct l1, l2; try discriminate; contradiction.
Qed.

Lemma last_split_final (u seg : string) :
  final_segment u seg -> List.last (split_on is_slash u) "" = seg.
Proof.
  intros [Hf [->|(pre & d & Hd & ->)]].
  - now rewrite split_on_free.
  - rewrite split_on_sep by exact Hd.
    rewrite last_app_nonempty by apply split_on_nonempty.
    now rewrite split_on_free.
Qed.

Lemma prefix_char (d : ascii) (s : string) :
  String.prefix (String d "") s
  = match s with String c _ => Ascii.eqb c d | EmptyString => false end.
Proof.
  destruct s as [|c r]; simpl; [reflexivity|].
  destruct (ascii_dec d c) as [->|N].
  - rewrite Ascii.eqb_refl. destruct r; reflexivity.
  - symmetry. apply Ascii.eqb_neq. congruence.
Qed.

Lemma lastIndexOf_from_free (d : ascii) (s : string) (i : Z) :
  free_of (fun c => Ascii.eqb c d) s = true ->
  lastIndexOf_from s (String d "") i = -1.
Proof.
  revert i. induction s as [|c r IH]; intros i; [reflexivity|].
  cbn [free_of lastIndexOf_from]. intros [Hc Hr]%andb_true_iff.
  apply negb_true_iff in Hc. rewrite IH by exact Hr.
  rewrite prefix_char, Hc. reflexivity.
Qed.

Lemma lastIndexOf_from_last (d : ascii) (a b : string) (i : Z) :
  0 <= i ->
  free_of (fun c => Ascii.eqb c d) b = true ->
  lastIndexOf_from (a +:+ String d b) (String d "") i = i + len a.
Proof.
  intros Hi Hb. revert i Hi. induction a as [|c a IH]; intros i Hi.
  - rewrite append_nil_l. cbn [lastIndexOf_from].
    rewrite lastIndexOf_from_free by exact Hb.
    rewrite prefix_char, Ascii.eqb_refl. unfold len. simpl. lia.
  - rewrite append_cons. cbn [lastIndexOf_from]. rewrite IH by lia.
    pose proof (len_nonneg a).
    destruct (Z.leb_spec 0 (i + 1 + len a)); [|lia].
    unfold len. simpl String.length. lia.
Qed.

Lemma drop_append (a b : string) : drop (String.length a) (a +:+ b) = b.
Proof.
  induction a as [|c a IH]; [destruct b; reflexivity|].
  rewrite append_cons. simpl. exact IH.
Qed.

Lemma take_append (a b : string) : take (String.length a) (a +:+ b) = a.
Proof.
  induction a as [|c a IH]; [reflexivity|].
  rewrite append_cons. simpl. rewrite IH. reflexivity.
Qed.

Lemma substring_prefix (a b : string) :
  substring (a +:+ b) 0 (len a) = a.
Proof.
  unfold substring, clamp. rewrite len_append.
  pose proof (len_nonneg a). pose proof (len_nonneg b).
  replace (Z.max 0 (Z.min 0 (len a + len b))) with 0 by lia.
  replace (Z.max 0 (Z.min (len a) (len a + len b))) with (len a) by lia.
  replace (Z.min 0 (len a)) with 0 by lia.
  replace (Z.max 0 (len a)) with (len a) by lia.
  rewrite Z.sub_0_r. unfold len. rewrite Nat2Z.id. simpl. apply take_append.
Qed.

Lemma slice_from_after (a b : string) (d : ascii) :
  slice_from (a +:+ String d b) (len a + 1) = b.
Proof.
  unfold slice_from, clamp. rewrite len_append.
  pose proof (len_nonneg a). pose proof (len_nonneg b).
  assert (E : len (String d b) = 1 + len b) by (unfold len; simpl; lia).
  rewrite E.
  replace (Z.max 0 (Z.min (len a + 1) (len a + (1 + len b))))
    with (len (a +:+ String d "")).
  2:{ rewrite len_append. unfold len. simpl. lia. }
  unfold len. rewrite Nat2Z.id.
  replace (a +:+ String d b) with ((a +:+ String d "") +:+ b).
  - apply drop_append.
  - rewrite append_assoc. reflexivity.
Qed.

End StringFacts.

(** ** Extensions *)

Section Extension.

Import JsString.

Lemma extension_of_segment (u seg : string) :
  final_segment u seg ->
  u <> "" ->
  getExtensionFromUri (ItemString u)
  = if (String.eqb seg "" || (lastIndexOf seg "." <? 1))%bool then ""
    else slice_from seg (lastIndexOf seg "." + 1).
Proof.
  intros Hseg Hu. unfold getExtensionFromUri, str_truthy.
  destruct (String.eqb_spec u "") as [?|_]; [contradiction|]. simpl negb.
  cbv iota. rewrite (last_split_final u seg Hseg). reflexivity.
Qed.

(** C8: [getExtensionFromUri] takes the final segment of the URI (given as
    a string or as the [uri] of an object), cutting at forward and back
    slashes, and answers what follows the last '.' of that segment; the
    answer is the empty string when the input is absent, when the segment
    is empty or has no '.', and when its last '.' is its first character. *)
Theorem getExtensionFromUri_spec :
  getExtensionFromUri ItemAbsent = ""
  /\ getExtensionFromUri (ItemString "") = ""
  /\ (forall a : asset,
        getExtensionFromUri (ItemObject a)
        = getExtensionFromUri (ItemString (default "" (uri (obj a)))))
  /\ (forall u seg : string,
        final_segment u seg ->
        (free_of is_dot seg = true ->
         getExtensionFromUri (ItemString u) = "")
        /\ (forall stem ext : string,
              seg = stem +:+ "." +:+ ext ->
              free_of is_dot ext = true ->
              getExtensionFromUri (ItemString u)
              = if String.eqb stem "" then "" else ext))
  /\ getExtensionFromUri (ItemString "a/b/file.tar.gz") = "gz"
  /\ getExtensionFromUri (ItemString "a/.gitignore") = ""
  /\ getExtensionFromUri (ItemString "a/noext") = "".
Proof.
  split; [reflexivity|]. split; [reflexivity|]. split.
  { intros [n]. unfold getExtensionFromUri. simpl.
    destruct (uri n) as [u|]; simpl; [|reflexivity].
    unfold str_truthy. destruct (String.eqb_spec u ""); [subst|]; reflexivity. }
  split; [|repeat split; reflexivity].
  intros u seg Hseg.
  destruct (String.eqb_spec u "") as [->|Hu].
  { (* the empty URI: its only segment is empty *)
    assert (seg = "") as ->.
    { destruct Hseg as [_ [E|(pre & d & _ & E)]]; [auto|].
      destruct pre; discriminate. }
    split; [reflexivity|]. intros stem ext E _.
    destruct stem; discriminate. }
  rewrite (extension_of_segment u seg Hseg Hu). split.
  - intros Hfree. unfold lastIndexOf.
    rewrite lastIndexOf_from_free by exact Hfree.
    rewrite orb_true_r. reflexivity.
  - intros stem ext -> Hext. unfold lastIndexOf.
    change ("." +:+ ext) with (String "."%char ext).
    rewrite lastIndexOf_from_last by (try lia; exact Hext).
    rewrite Z.add_0_l. destruct stem as [|c stem].
    + reflexivity.
    + assert (Hlen : 1 <= len (String c stem)) by (unfold len; simpl; lia).
      destruct (Z.ltb_spec (len (String c stem)) 1); [lia|].
      rewrite slice_from_after. simpl. reflexivity.
Qed.

End Extension.

(** ** Ancestor paths *)

Section Ancestors.

Import JsString.

Lemma under_snoc (root : string) (segs : list string) (s : string) :
  under root (segs ++ [s]) = under root segs +:+ "/" +:+ s.
Proof. unfold under. rewrite fold_left_app. reflexivity. Qed.

Lemma paths_from_snoc (root : string) (segs : list string) (s : string) :
  paths_from root (segs ++ [s]) = paths_from root segs ++ [under root segs].
Proof.
  revert root. induction segs as [|x segs IH]; intros root; [reflexivity|].
  simpl. rewrite IH. reflexivity.
Qed.

Lemma under_root_prefix (root : string) (segs : list string) :
  exists tail, under root segs = root +:+ tail.
Proof.
  induction segs as [|s segs IH] using rev_ind.
  - exists "". simpl. now rewrite append_nil_r.
  - destruct IH as [tail E]. exists (tail +:+ "/" +:+ s).
    rewrite under_snoc, E, append_assoc. reflexivity.
Qed.

Lemma length_under (root : string) (segs : list string) :
  (String.length root <= String.length (under root segs))%nat.
Proof.
  destruct (under_root_prefix root segs) as [tail ->].
  rewrite length_append. lia.
Qed.

Lemma eqb_length_neq (a b : string) :
  String.length a <> String.length b -> String.eqb a b = false.
Proof. intros H. apply String.eqb_neq. intros ->. contradiction. Qed.

Lemma length_take (n : nat) (s : string) :
  String.length (take n s) = Nat.min n (String.length s).
Proof.
  revert s. induction n as [|n IH]; intros [|c s]; simpl; auto.
Qed.

Lemma length_substring_0 (s : string) (k : Z) :
  String.length (substring s 0 k) = Z.to_nat (clamp s k).
Proof.
  unfold substring. pose proof (len_nonneg s).
  assert (E0 : clamp s 0 = 0) by (unfold clamp; lia). rewrite E0.
  assert (0 <= clamp s k <= len s) by (unfold clamp; lia).
  replace (Z.min 0 (clamp s k)) with 0 by lia.
  replace (Z.max 0 (clamp s k)) with (clamp s k) by lia.
  rewrite Z.sub_0_r. simpl. rewrite length_take. unfold len in *. lia.
Qed.

Lemma indexOf_from_bounds (d : ascii) (s : string) (i : Z) :
  indexOf_from s (String d "") i = -1
  \/ i <= indexOf_from s (String d "") i < i + len s.
Proof.
  revert i. induction s as [|c r IH]; intros i.
  - left. reflexivity.
  - cbn [indexOf_from]. rewrite prefix_char.
    assert (E : len (String c r) = 1 + len r) by (unfold len; simpl; lia).
    pose proof (len_nonneg r).
    destruct (Ascii.eqb c d); [right; lia|].
    destruct (IH (i + 1)) as [->|Hb]; [left; reflexivity|right; lia].
Qed.

Lemma lastIndexOf_from_bounds (d : ascii) (s : string) (i : Z) :
  lastIndexOf_from s (String d "") i = -1
  \/ i <= lastIndexOf_from s (String d "") i < i + len s.
Proof.
  revert i. induction s as [|c r IH]; intros i.
  - left. reflexivity.
  - cbn [lastIndexOf_from]. rewrite prefix_char.
    assert (E : len (String c r) = 1 + len r) by (unfold len; simpl; lia).
    pose proof (len_nonneg r).
    destruct (IH (i + 1)) as [->|Hb].
    + simpl. destruct (Ascii.eqb c d); [right; lia|left; reflexivity].
    + destruct (Z.leb_spec 0 (lastIndexOf_from r (String d "") (i + 1)));
        [right; lia|].
      destruct (Ascii.eqb c d); [right; lia|left; reflexivity].
Qed.

(** The part of the root before its first separator is shorter than the
    root. *)
Lemma root_head_shorter (root : string) :
  root <> "" ->
  (String.length (substring root 0 (indexOf root path.sep))
   < String.length root)%nat.
Proof.
  intros Hne. rewrite length_substring_0. unfold indexOf, path.sep, clamp.
  assert (0 < len root) by (destruct root; [contradiction|unfold len; simpl; lia]).
  destruct (indexOf_from_bounds "/"%char root 0) as [->|Hb];
    unfold len in *; lia.
Qed.

(** One round of the loop on [parent/s]. *)
Lemma loop_step (fuel : nat) (parent s root : string) (acc : list string) :
  free_of path.is_sep s = true ->
  (String.length root <= String.length parent)%nat ->
  root <> "" ->
  findAllDescendantAssetsByUri_loop (S fuel) (parent +:+ "/" +:+ s) root acc
  = findAllDescendantAssetsByUri_loop fuel parent root (acc ++ [parent]).
Proof.
  intros Hs Hlen Hne. cbn [findAllDescendantAssetsByUri_loop].
  rewrite eqb_length_neq.
  2:{ rewrite length_append. simpl. lia. }
  unfold lastIndexOf, path.sep.
  change ("/" +:+ s) with (String "/"%char s).
  rewrite lastIndexOf_from_last by (try lia; exact Hs).
  rewrite Z.add_0_l. pose proof (len_nonneg parent).
  destruct (Z.eqb_spec (len parent) (-1)); [lia|].
  rewrite substring_prefix.
  rewrite eqb_length_neq; [reflexivity|].
  pose proof (root_head_shorter root Hne). unfold path.sep in *. lia.
Qed.

Lemma loop_under (root : string) (segs : list string) :
  root <> "" ->
  Forall (fun s => free_of path.is_sep s = true) segs ->
  forall (fuel : nat) (acc : list string),
    (length segs <= fuel)%nat ->
    findAllDescendantAssetsByUri_loop fuel (under root segs) root acc
    = Some (acc ++ rev (paths_from root segs)).
Proof.
  intros Hne. induction segs as [|s segs IH] using rev_ind;
    intros Hfree fuel acc Hfuel.
  - simpl. destruct fuel; simpl; rewrite String.eqb_refl, app_nil_r; reflexivity.
  - apply Forall_app in Hfree as [Hsegs Hs]. inversion Hs as [|? ? Hs' _]; subst.
    rewrite length_app in Hfuel. simpl in Hfuel.
    destruct fuel as [|fuel]; [lia|].
    rewrite under_snoc, loop_step; auto using length_under.
    rewrite IH by (auto; lia).
    rewrite paths_from_snoc, rev_app_distr. simpl.
    rewrite <- app_assoc. reflexivity.
Qed.

Lemma length_under_segs (root : string) (segs : list string) :
  (String.length root + length segs <= String.length (under root segs))%nat.
Proof.
  induction segs as [|s segs IH] using rev_ind; [simpl; lia|].
  rewrite under_snoc, length_app, !length_append. simpl. lia.
Qed.

Lemma prefix_append (a b : string) : String.prefix a (a +:+ b) = true.
Proof.
  induction a as [|c a IH]; [destruct b; reflexivity|].
  rewrite append_cons. simpl. destruct (ascii_dec c c); [exact IH|contradiction].
Qed.

Lemma indexOf_from_ge (s pat : string) (i : Z) :
  indexOf_from s pat i = -1 \/ i <= indexOf_from s pat i.
Proof.
  revert i. induction s as [|c r IH]; intros i; cbn [indexOf_from].
  - destruct (String.prefix pat ""); [right; lia|left; reflexivity].
  - destruct (String.prefix pat (String c r)); [right; lia|].
    destruct (IH (i + 1)) as [->|H]; [left; reflexivity|right; lia].
Qed.

Lemma indexOf_zero_iff (s pat : string) :
  indexOf s pat = 0 <-> String.prefix pat s = true.
Proof.
  unfold indexOf. destruct s as [|c r]; cbn [indexOf_from].
  - destruct (String.prefix pat ""); split; congruence.
  - destruct (String.prefix pat (String c r)); [tauto|].
    split; [|discriminate].
    destruct (indexOf_from_ge r pat (0 + 1)) as [E|H]; intros E'; [congruence|lia].
Qed.

Lemma loop_total (fuel : nat) (a r : string) (acc : list string) :
  (String.length a < fuel)%nat ->
  is_Some (findAllDescendantAssetsByUri_loop fuel a r acc).
Proof.
  revert a acc. induction fuel as [|fuel IH]; intros a acc Hlt; [lia|].
  cbn [findAllDescendantAssetsByUri_loop].
  destruct (String.eqb a r); [eauto|].
  destruct (Z.eqb_spec (lastIndexOf a path.sep) (-1)); [eauto|].
  apply IH. rewrite length_substring_0. unfold lastIndexOf, path.sep, clamp in *.
  destruct (lastIndexOf_from_bounds "/"%char a 0) as [E|Hb]; [contradiction|].
  unfold len in *. lia.
Qed.

(** C2 (as amended): when [assetUri] is [rootUri] followed by segments,
    each after a separator, [findAllDescendantAssetsByUri] answers the
    ancestor paths of [assetUri] from its parent up to [rootUri], the
    innermost first and [rootUri] itself last; [assetUri] is not in the
    list.  It answers the empty list when [rootUri] is not a prefix of
    [assetUri] and when either argument is absent (null, undefined or the
    empty string).  The loop always ends. *)
Theorem findAllDescendantAssetsByUri_spec :
  (forall (root : string) (segs : list string),
     root <> "" ->
     Forall (fun s => free_of path.is_sep s = true) segs ->
     findAllDescendantAssetsByUri (Some (under root segs)) (Some root)
     = Some (rev (paths_from root segs)))
  /\ (forall a r : string,
        String.prefix r a = false ->
        findAllDescendantAssetsByUri (Some a) (Some r) = Some [])
  /\ (forall a r : option string,
        ostr_truthy a = false \/ ostr_truthy r = false ->
        findAllDescendantAssetsByUri a r = Some [])
  /\ (forall a r : option string,
        is_Some (findAllDescendantAssetsByUri a r)).
Proof.
  split; [|split; [|split]].
  - intros root segs Hne Hfree. unfold findAllDescendantAssetsByUri.
    destruct (under_root_prefix root segs) as [tail E].
    assert (Hp : String.prefix root (under root segs) = true)
      by (rewrite E; apply prefix_append).
    apply indexOf_zero_iff in Hp. unfold includes. rewrite Hp.
    unfold str_truthy.
    destruct (String.eqb_spec root ""); [contradiction|].
    destruct (String.eqb_spec (under root segs) "") as [E0|_].
    { pose proof (length_under root segs) as Hl. rewrite E0 in Hl.
      destruct root; [contradiction|simpl in Hl; lia]. }
    replace (negb false && negb false && (0 <=? 0) && (0 =? 0))%bool
      with true by reflexivity.
    cbv iota. pose proof (length_under_segs root segs).
    rewrite loop_under by (auto; lia). reflexivity.
  - intros a r Hp. unfold findAllDescendantAssetsByUri.
    destruct (Z.eqb_spec (indexOf a r) 0) as [E|_].
    + apply indexOf_zero_iff in E. congruence.
    + rewrite andb_false_r. reflexivity.
  - intros [a|] [r|] [H|H]; simpl in H; try discriminate; try reflexivity;
      unfold findAllDescendantAssetsByUri; rewrite H;
      rewrite ?andb_false_r; reflexivity.
  - intros [a|] [r|]; unfold findAllDescendantAssetsByUri; eauto.
    destruct (_ && _)%bool; [|eauto]. apply loop_total. lia.
Qed.

End Ancestors.

(** ** Path conversion over a tree *)

Section Conversion.

Variable cwd : string.

Lemma _recursivePathConversion_unfold (pp : option string) (a : asset)
    (w : workerFn) :
  _recursivePathConversion pp a w
  = n ← (if convertible a
         then u ← w _ pp (Some (obj a)); Ok (set_uri (obj a) u)
         else Ok (obj a));
    match children (obj a) with
    | None => Ok (Asset n)
    | Some cs =>
        cs' ← mapR (fun c => _recursivePathConversion pp c w) cs;
        Ok (Asset (set_children n (Some cs')))
    end.
Proof.
  destruct a as [n]. unfold convertible. simpl.
  destruct (if shouldConvertPath (Some n) then _ else _) as [n1|e];
    simpl; [|reflexivity].
  destruct (children n) as [cs|]; [|reflexivity].
  assert (E : (fix loop (cs : list asset) : result (list asset) :=
                 match cs with
                 | [] => Ok []
                 | c :: rest =>
                     c' ← _recursivePathConversion pp c w;
                     rest' ← loop rest; Ok (c' :: rest')
                 end) cs
              = mapR (fun c => _recursivePathConversion pp c w) cs).
  { induction cs as [|c cs IH]; simpl; [reflexivity|]. rewrite IH. reflexivity. }
  rewrite E. reflexivity.
Qed.

Lemma convertible_set (n : node asset) u cs :
  convertible (Asset (set_children (set_uri n u) cs)) = convertible (Asset n).
Proof. destruct n; reflexivity. Qed.

Lemma with_null_uris_fields (a : asset) :
  type (obj (with_null_uris a)) = type (obj a)
  /\ uri (obj (with_null_uris a))
     = (if convertible a then None else uri (obj a))
  /\ kids (with_null_uris a) = map with_null_uris (kids a).
Proof.
  destruct a as [n]. unfold kids. cbn [with_null_uris obj].
  destruct (convertible (Asset n));
    destruct n as [u t nm at' md ns [cs|]]; repeat split; reflexivity.
Qed.

Lemma preorder_with_null_uris (a : asset) :
  Forall2 (fun x x' =>
             type (obj x') = type (obj x)
             /\ uri (obj x') = if convertible x then None else uri (obj x))
    (preorder a) (preorder (with_null_uris a)).
Proof.
  induction a as [n IH] using asset_ind'.
  rewrite !preorder_unfold.
  destruct (with_null_uris_fields (Asset n)) as (Ht & Hu & Hk).
  constructor; [split; assumption|]. rewrite Hk. clear Ht Hu Hk.
  unfold kids. simpl. destruct (children n) as [cs|] eqn:Ec; [|constructor].
  specialize (IH cs eq_refl). simpl. clear Ec.
  induction IH as [|c cs Hc _ IHcs]; simpl; [constructor|].
  apply Forall2_app; assumption.
Qed.

(** What [absoluteToRelativePath] makes of a URI that is not absolute. *)
Lemma absoluteToRelativePath_relative {C} (pp : option string) (n : node C) :
  match uri n with
  | Some u => path.isAbsolute u = false
  | None => True
  end ->
  absoluteToRelativePath cwd pp (Some n) = Ok None.
Proof.
  unfold absoluteToRelativePath. destruct (uri n) as [u|]; [|reflexivity].
  intros ->. reflexivity.
Qed.

Lemma _recursivePathConversion_relative (pp : option string) (a : asset) :
  Forall (fun x => convertible x = true ->
                   match uri (obj x) with
                   | Some u => path.isAbsolute u = false
                   | None => True
                   end) (preorder a) ->
  _recursivePathConversion pp a (@absoluteToRelativePath cwd)
  = Ok (with_null_uris a).
Proof.
  induction a as [n IH] using asset_ind'. intros H.
  rewrite preorder_unfold in H. apply Forall_cons in H as [Hn Hcs].
  rewrite _recursivePathConversion_unfold. simpl obj.
  assert (E1 : (if convertible (Asset n)
                then u ← absoluteToRelativePath cwd pp (Some n);
                     Ok (set_uri n u)
                else Ok n)
               = Ok (if convertible (Asset n) then set_uri n None else n)).
  { destruct (convertible (Asset n)); [|reflexivity].
    rewrite absoluteToRelativePath_relative by (apply Hn; reflexivity).
    reflexivity. }
  rewrite E1. simpl mbind. unfold result_bind at 1.
  cbn [with_null_uris obj].
  unfold kids in Hcs. simpl in Hcs.
  destruct (children n) as [cs|] eqn:Ec; [|reflexivity].
  specialize (IH cs eq_refl). simpl in Hcs.
  assert (E2 : mapR (fun c => _recursivePathConversion pp c
                                (@absoluteToRelativePath cwd)) cs
               = Ok (map with_null_uris cs)).
  { clear Ec E1. induction IH as [|c cs Hc _ IHcs]; [reflexivity|].
    simpl in Hcs. apply Forall_app in Hcs as [H1 H2].
    simpl. rewrite Hc by exact H1. simpl. rewrite IHcs by exact H2.
    reflexivity. }
  rewrite E2. reflexivity.
Qed.

(** C9: on a tree whose convertible (FILE, DIRECTORY, FOLDER) nodes carry
    URIs that are not absolute, [recursiveAbsoluteToRelativePath] with a
    project path that is not null does not keep those URIs: it returns the
    tree in which the [uri] of every convertible node is null (the null the
    per-node converter answers is written into the copy), and the other
    nodes keep theirs. *)
Theorem recursiveAbsoluteToRelativePath_relative_input
    (p : string) (t : asset) :
  Forall (fun x => convertible x = true ->
                   match uri (obj x) with
                   | Some u => path.isAbsolute u = false
                   | None => True
                   end) (preorder t) ->
  recursiveAbsoluteToRelativePath cwd (Some p) (Some t)
  = Ok (Some (with_null_uris t))
  /\ Forall2 (fun x x' =>
                type (obj x') = type (obj x)
                /\ uri (obj x') = if convertible x then None else uri (obj x))
       (preorder t) (preorder (with_null_uris t)).
Proof.
  intros H. split; [|apply preorder_with_null_uris].
  unfold recursiveAbsoluteToRelativePath, recursivePathConversion.
  rewrite _recursivePathConversion_relative by exact H. reflexivity.
Qed.

End Conversion.

(** ** Facts about [path] *)

Section PathFacts.

Import JsString.

Variable cwd : string.

Lemma clean_segment_inv (s : string) :
  clean_segment s = true ->
  s <> "" /\ s <> "." /\ s <> ".." /\ free_of path.is_sep s = true.
Proof.
  unfold clean_segment. rewrite !andb_true_iff, !negb_true_iff.
  intros [[[H1 H2] H3] H4]. repeat split; try assumption;
    apply String.eqb_neq; assumption.
Qed.

Lemma split_on_join (l : list string) :
  l <> [] ->
  Forall (fun s => free_of path.is_sep s = true) l ->
  split_on path.is_sep (join "/" l) = l.
Proof.
  intros Hne H. induction H as [|x l Hx Hl IH]; [contradiction|].
  destruct l as [|y r].
  - simpl. apply split_on_free. exact Hx.
  - change (join "/" (x :: y :: r))
      with (x +:+ String "/"%char (join "/" (y :: r))).
    rewrite split_on_sep by reflexivity.
    rewrite split_on_free by exact Hx. rewrite IH by discriminate.
    reflexivity.
Qed.

Lemma split_on_pieces_free (p : ascii -> bool) (s : string) :
  Forall (fun x => free_of p x = true) (split_on p s).
Proof.
  induction s as [|c r IH]; simpl; [repeat constructor|].
  destruct (p c) eqn:Hc; [constructor; [reflexivity|exact IH]|].
  destruct (split_on p r) as [|h t]; [repeat constructor; simpl; now rewrite Hc|].
  inversion IH; subst. constructor; [|assumption].
  simpl. rewrite Hc. assumption.
Qed.

Lemma norm_step_clean (st : list string) (s : string) :
  clean_segment s = true -> path.norm_step false st s = s :: st.
Proof.
  intros (H1 & H2 & H3 & _)%clean_segment_inv. unfold path.norm_step.
  apply String.eqb_neq in H1, H2, H3. rewrite H1, H2, H3. reflexivity.
Qed.

Lemma fold_norm_clean (ts st : list string) :
  Forall (fun s => clean_segment s = true) ts ->
  fold_left (path.norm_step false) ts st = rev ts ++ st.
Proof.
  intros H. revert st. induction H as [|t ts Ht _ IH]; intros st; [reflexivity|].
  simpl. rewrite norm_step_clean by exact Ht. rewrite IH, <- app_assoc.
  reflexivity.
Qed.

(** Normalisation keeps only clean segments. *)
Lemma fold_norm_keeps_clean (segs st : list string) :
  Forall (fun s => free_of path.is_sep s = true) segs ->
  Forall (fun s => clean_segment s = true) st ->
  Forall (fun s => clean_segment s = true)
    (fold_left (path.norm_step false) segs st).
Proof.
  intros H. revert st. induction H as [|s segs Hs _ IH]; intros st Hst;
    [exact Hst|].
  simpl. apply IH. unfold path.norm_step.
  destruct (String.eqb_spec s "") as [|N1]; [exact Hst|].
  destruct (String.eqb_spec s ".") as [|N2]; [exact Hst|]. simpl.
  destruct (String.eqb_spec s "..") as [|N3].
  - destruct st as [|top rest]; [constructor|].
    destruct (String.eqb top ".."); [exact Hst|].
    inversion Hst; assumption.
  - constructor; [|exact Hst]. unfold clean_segment.
    apply String.eqb_neq in N1, N2, N3. rewrite N1, N2, N3, Hs. reflexivity.
Qed.

Lemma root_segments_clean (R : string) :
  Forall (fun s => clean_segment s = true) (root_segments R).
Proof.
  unfold root_segments, path.normalizeSegments.
  apply Forall_rev, fold_norm_keeps_clean; [apply split_on_pieces_free|constructor].
Qed.

Lemma clean_free (l : list string) :
  Forall (fun s => clean_segment s = true) l ->
  Forall (fun s => free_of path.is_sep s = true) l.
Proof.
  intros H. eapply Forall_impl; [exact H|].
  intros s Hs. apply clean_segment_inv in Hs. tauto.
Qed.

(** A trailing separator does not change the normal form. *)
Lemma normalizeSegments_trailing (R : string) :
  path.normalizeSegments false (split_on path.is_sep (R +:+ "/"))
  = root_segments R.
Proof.
  unfold root_segments, path.normalizeSegments.
  change (R +:+ "/") with (R +:+ String "/"%char "").
  rewrite split_on_sep by reflexivity. rewrite fold_left_app. reflexivity.
Qed.

Lemma isAbsolute_nonempty (R : string) :
  path.isAbsolute R = true -> String.eqb R "" = false.
Proof. destruct R; [discriminate|reflexivity]. Qed.

Lemma resolve_absolute (R : string) :
  path.isAbsolute R = true ->
  path.resolve cwd [Some R; Some ""] = Ok ("/" +:+ join "/" (root_segments R))
  /\ path.resolve cwd [Some R] = Ok ("/" +:+ join "/" (root_segments R)).
Proof.
  intros Habs. unfold path.resolve. simpl.
  rewrite (isAbsolute_nonempty R Habs), Habs. simpl.
  unfold path.normalizeString.
  rewrite normalizeSegments_trailing. split; reflexivity.
Qed.

Lemma join_clean_relative (t : string) (ts : list string) :
  clean_segment t = true ->
  String.eqb (join "/" (t :: ts)) "" = false
  /\ path.isAbsolute (join "/" (t :: ts)) = false.
Proof.
  intros (H1 & _ & _ & H4)%clean_segment_inv.
  destruct t as [|c t']; [contradiction|].
  simpl in H4. apply andb_true_iff in H4 as [Hc _]. apply negb_true_iff in Hc.
  destruct ts; simpl; auto.
Qed.

Lemma resolve_under (R : string) (ts : list string) :
  path.isAbsolute R = true ->
  Forall (fun s => clean_segment s = true) ts ->
  path.resolve cwd [Some R; Some (join "/" ts)]
  = Ok ("/" +:+ join "/" (root_segments R ++ ts)).
Proof.
  intros Habs Hts. destruct ts as [|t ts].
  { rewrite app_nil_r. apply resolve_absolute. exact Habs. }
  inversion Hts as [|? ? Ht Hts']; subst.
  destruct (join_clean_relative t ts Ht) as [Hne Hrel].
  assert (Hsplit : split_on path.is_sep (join "/" (t :: ts)) = t :: ts)
    by (apply split_on_join; [discriminate|apply clean_free; exact Hts]).
  revert Hne Hrel Hsplit. generalize (join "/" (t :: ts)) as rel.
  intros rel Hne Hrel Hsplit.
  unfold path.resolve. simpl rev. simpl app.
  cbn [path.resolve_loop]. rewrite Hne, Hrel.
  rewrite (isAbsolute_nonempty R Habs), Habs.
  cbn [mbind result_bind fst snd negb]. unfold path.normalizeString.
  f_equal. f_equal. f_equal.
  change (R +:+ "/" +:+ rel +:+ "/" +:+ "")
    with (R +:+ String "/"%char (rel +:+ String "/"%char "")).
  rewrite !split_on_sep by reflexivity. rewrite Hsplit.
  unfold root_segments, path.normalizeSegments. rewrite !fold_left_app.
  rewrite (fold_norm_clean (t :: ts)) by exact Hts.
  change (split_on path.is_sep "") with [""]. cbn [fold_left].
  change (path.norm_step false ?st "") with st.
  rewrite rev_app_distr, rev_involutive. reflexivity.
Qed.

Lemma filter_nonempty_clean (l : list string) :
  Forall (fun s => clean_segment s = true) l ->
  filter (fun s : string => s <> "") l = l.
Proof.
  induction 1 as [|x l Hx _ IH]; [reflexivity|].
  rewrite filter_cons_True, IH; [reflexivity|].
  apply clean_segment_inv in Hx. tauto.
Qed.

Lemma segments_canonical (l : list string) :
  Forall (fun s => clean_segment s = true) l ->
  path.segments ("/" +:+ join "/" l) = l.
Proof.
  intros H. unfold path.segments.
  change ("/" +:+ join "/" l) with ("" +:+ String "/"%char (join "/" l)).
  rewrite split_on_sep by reflexivity. simpl split_on at 1.
  destruct l as [|x l']; [reflexivity|].
  rewrite split_on_join by (try discriminate; apply clean_free; exact H).
  simpl app. rewrite filter_cons_False by (intros N; apply N; reflexivity).
  apply filter_nonempty_clean. exact H.
Qed.

Lemma root_segments_canonical (l : list string) :
  Forall (fun s => clean_segment s = true) l ->
  root_segments ("/" +:+ join "/" l) = l.
Proof.
  intros H. unfold root_segments, path.normalizeSegments.
  change ("/" +:+ join "/" l) with ("" +:+ String "/"%char (join "/" l)).
  rewrite split_on_sep by reflexivity. simpl split_on at 1.
  rewrite fold_left_app. simpl fold_left at 2.
  destruct l as [|x l']; [reflexivity|].
  rewrite split_on_join by (try discriminate; apply clean_free; exact H).
  rewrite fold_norm_clean by exact H. rewrite app_nil_r. apply rev_involutive.
Qed.

Lemma strip_common_prefix (rs ts : list string) :
  path.strip_common rs (rs ++ ts) = ([], ts).
Proof.
  induction rs as [|r rs IH]; simpl; [destruct ts; reflexivity|].
  rewrite String.eqb_refl. exact IH.
Qed.

Lemma app_self_nil {A} (l t : list A) : l = l ++ t -> t = [].
Proof.
  intros E. apply (f_equal (@List.length A)) in E. rewrite length_app in E.
  destruct t; [reflexivity|simpl in E; lia].
Qed.

End PathFacts.

(** ** Round trip *)

Section RoundTrip.

Import JsString.

Variable cwd : string.

Lemma relative_under (R : string) (ts : list string) :
  path.isAbsolute R = true ->
  Forall (fun s => clean_segment s = true) ts ->
  path.relative cwd (Some R)
    (Some ("/" +:+ join "/" (root_segments R ++ ts)))
  = Ok (join "/" ts).
Proof.
  intros Habs Hts.
  assert (Hall : Forall (fun s => clean_segment s = true)
                   (root_segments R ++ ts))
    by (apply Forall_app; split; [apply root_segments_clean|exact Hts]).
  set (u := "/" +:+ join "/" (root_segments R ++ ts)).
  assert (Hu : path.isAbsolute u = true) by reflexivity.
  destruct (resolve_absolute cwd R Habs) as [_ ER].
  destruct (resolve_absolute cwd u Hu) as [_ EU].
  unfold u in EU at 2. rewrite root_segments_canonical in EU by exact Hall.
  fold u in EU.
  unfold path.relative.
  destruct (String.eqb_spec R u) as [E|_].
  { (* the root itself, written in normal form *)
    assert (Hs : root_segments R = root_segments R ++ ts).
    { rewrite E at 1. unfold u. apply root_segments_canonical. exact Hall. }
    apply app_self_nil in Hs. subst ts. reflexivity. }
  rewrite ER, EU. cbn [mbind result_bind].
  destruct (String.eqb_spec ("/" +:+ join "/" (root_segments R)) u) as [E|_].
  { assert (Hs : path.segments ("/" +:+ join "/" (root_segments R))
                 = path.segments u) by (rewrite E; reflexivity).
    unfold u in Hs.
    rewrite !segments_canonical in Hs
      by (try exact Hall; apply root_segments_clean).
    apply app_self_nil in Hs. subst ts. reflexivity. }
  unfold path.relative_resolved, u.
  rewrite !segments_canonical by (try exact Hall; apply root_segments_clean).
  rewrite strip_common_prefix. reflexivity.
Qed.

Lemma join_split_clean (ts : list string) :
  Forall (fun s => clean_segment s = true) ts ->
  join "/" (split_on path.is_sep (join "/" ts)) = join "/" ts.
Proof.
  intros H. destruct ts as [|t ts]; [reflexivity|].
  rewrite split_on_join by (try discriminate; apply clean_free; exact H).
  reflexivity.
Qed.

(** The two per-node conversions on a URI in normal form under [R]. *)
Lemma absoluteToRelativePath_under {C} (R : string) (ts : list string)
    (n : node C) :
  path.isAbsolute R = true ->
  Forall (fun s => clean_segment s = true) ts ->
  uri n = Some ("/" +:+ join "/" (root_segments R ++ ts)) ->
  absoluteToRelativePath cwd (Some R) (Some n) = Ok (Some (join "/" ts)).
Proof.
  intros Habs Hts Hn. unfold absoluteToRelativePath. rewrite Hn.
  change (path.isAbsolute ("/" +:+ join "/" (root_segments R ++ ts)))
    with true.
  cbn [negb]. rewrite relative_under by assumption.
  cbn [mbind result_bind]. rewrite join_split_clean by exact Hts.
  reflexivity.
Qed.

Lemma relativeToAbsolutePath_under {C} (R : string) (ts : list string)
    (n : node C) :
  path.isAbsolute R = true ->
  Forall (fun s => clean_segment s = true) ts ->
  uri n = Some (join "/" ts) ->
  relativeToAbsolutePath cwd (Some R) (Some n)
  = Ok (Some ("/" +:+ join "/" (root_segments R ++ ts))).
Proof.
  intros Habs Hts Hn. unfold relativeToAbsolutePath. rewrite Hn.
  rewrite resolve_under by assumption. reflexivity.
Qed.

Lemma set_uri_back (n : node asset) (u : string) (r : option string)
    (cs1 : option (list asset)) :
  uri n = Some u ->
  set_children (set_uri (set_children (set_uri n r) cs1) (Some u))
    (children n) = n.
Proof. destruct n; simpl; intros ->; reflexivity. Qed.

Lemma set_children_back (n : node asset) (cs1 : option (list asset)) :
  set_children (set_children n cs1) (children n) = n.
Proof. destruct n; reflexivity. Qed.

Lemma _recursivePathConversion_roundtrip (R : string) (t : asset) :
  path.isAbsolute R = true ->
  Forall (fun x => convertible x = true ->
                   exists u, uri (obj x) = Some u /\ canonical_under R u)
    (preorder t) ->
  exists t1,
    _recursivePathConversion (Some R) t (@absoluteToRelativePath cwd) = Ok t1
    /\ _recursivePathConversion (Some R) t1 (@relativeToAbsolutePath cwd)
       = Ok t.
Proof.
  intros Habs. induction t as [n IH] using asset_ind'. intros H.
  rewrite preorder_unfold in H. apply Forall_cons in H as [Hn Hcs].
  unfold kids in Hcs. simpl obj in Hcs.
  (* the children *)
  assert (Hkids : forall cs, children n = Some cs ->
            exists cs1,
              mapR (fun c => _recursivePathConversion (Some R) c
                               (@absoluteToRelativePath cwd)) cs = Ok cs1
              /\ mapR (fun c => _recursivePathConversion (Some R) c
                                  (@relativeToAbsolutePath cwd)) cs1 = Ok cs).
  { intros cs Ec. specialize (IH cs Ec). rewrite Ec in Hcs. simpl in Hcs.
    clear Ec. induction IH as [|c cs Hc _ IHcs].
    - exists []. split; reflexivity.
    - simpl in Hcs. apply Forall_app in Hcs as [H1 H2].
      destruct (Hc H1) as (c1 & Ea & Eb).
      destruct (IHcs H2) as (cs1 & Eas & Ebs).
      exists (c1 :: cs1). simpl. rewrite Ea. simpl. rewrite Eas. simpl.
      rewrite Eb. simpl. rewrite Ebs. split; reflexivity. }
  rewrite _recursivePathConversion_unfold. simpl obj.
  destruct (convertible (Asset n)) eqn:Hconv.
  - destruct (Hn eq_refl) as (u & Eu & ts & Hts & ->). simpl in Eu.
    rewrite (absoluteToRelativePath_under R ts n Habs Hts Eu).
    cbn [mbind result_bind].
    destruct (children n) as [cs|] eqn:Ec.
    + destruct (Hkids cs eq_refl) as (cs1 & Ea & Eb). rewrite Ea.
      cbn [mbind result_bind]. eexists. split; [reflexivity|].
      rewrite _recursivePathConversion_unfold. simpl obj.
      rewrite convertible_set, Hconv.
      rewrite (relativeToAbsolutePath_under R ts) by
        (try assumption; destruct n; reflexivity).
      cbn [mbind result_bind].
      replace (children (set_children (set_uri n (Some (join "/" ts)))
                           (Some cs1))) with (Some cs1)
        by (destruct n; reflexivity).
      rewrite Eb. cbn [mbind result_bind]. rewrite <- Ec.
      rewrite set_uri_back by exact Eu. reflexivity.
    + eexists. split; [reflexivity|].
      rewrite _recursivePathConversion_unfold. simpl obj.
      assert (Ec' : children (set_uri n (Some (join "/" ts))) = None)
        by (destruct n; exact Ec).
      assert (Hc' : convertible (Asset (set_uri n (Some (join "/" ts))))
                    = true)
        by (destruct n; exact Hconv).
      rewrite Hc', Ec'.
      rewrite (relativeToAbsolutePath_under R ts) by
        (try assumption; destruct n; reflexivity).
      cbn [mbind result_bind]. do 2 f_equal.
      destruct n; simpl in *; subst; reflexivity.
  - cbn [mbind result_bind].
    destruct (children n) as [cs|] eqn:Ec.
    + destruct (Hkids cs eq_refl) as (cs1 & Ea & Eb). rewrite Ea.
      cbn [mbind result_bind]. eexists. split; [reflexivity|].
      rewrite _recursivePathConversion_unfold. simpl obj.
      assert (Hc' : convertible (Asset (set_children n (Some cs1))) = false)
        by (destruct n; exact Hconv).
      rewrite Hc'. cbn [mbind result_bind].
      replace (children (set_children n (Some cs1))) with (Some cs1)
        by (destruct n; reflexivity).
      rewrite Eb. cbn [mbind result_bind]. rewrite <- Ec.
      rewrite set_children_back. reflexivity.
    + eexists. split; [reflexivity|].
      rewrite _recursivePathConversion_unfold. simpl obj.
      rewrite Hconv, Ec. reflexivity.
Qed.

(** Whatever the conversion function, a node that is not convertible
    keeps its [uri], and every node keeps its [type]. *)
Lemma _recursivePathConversion_frame (pp : option string) (w : workerFn)
    (t t' : asset) :
  _recursivePathConversion pp t w = Ok t' ->
  Forall2 (fun x x' =>
             type (obj x') = type (obj x)
             /\ (convertible x = false -> uri (obj x') = uri (obj x)))
    (preorder t) (preorder t').
Proof.
  revert t'. induction t as [n IH] using asset_ind'. intros t'.
  rewrite _recursivePathConversion_unfold. simpl obj.
  destruct (if convertible (Asset n) then _ else _) as [n1|e] eqn:E1;
    [|discriminate].
  cbn [mbind result_bind].
  assert (Hn1 : type n1 = type n
                /\ (convertible (Asset n) = false -> uri n1 = uri n)
                /\ children n1 = children n).
  { destruct (convertible (Asset n)).
    - destruct (w asset pp (Some n)) as [u|]; [|discriminate].
      injection E1 as <-. destruct n; repeat split; auto; discriminate.
    - injection E1 as <-. auto. }
  destruct Hn1 as (Ht & Hu & Hc).
  destruct (children n) as [cs|] eqn:Ec.
  - specialize (IH cs eq_refl).
    destruct (mapR _ cs) as [cs'|] eqn:Em; [|discriminate].
    cbn [mbind result_bind]. intros [= <-].
    rewrite (preorder_unfold (Asset n)), preorder_unfold.
    constructor.
    { simpl. destruct n1; simpl in *; auto. }
    unfold kids. simpl obj. rewrite Ec.
    replace (children (set_children n1 (Some cs'))) with (Some cs')
      by (destruct n1; reflexivity).
    simpl. clear Ec Hc. revert cs' Em.
    induction IH as [|c cs Hc' _ IHcs]; intros cs' Em; simpl in Em.
    + injection Em as <-. constructor.
    + destruct (_recursivePathConversion pp c w) as [c1|] eqn:Ec1;
        [|discriminate].
      cbn [mbind result_bind] in Em.
      destruct (mapR _ cs) as [cs1|] eqn:Em1; [|discriminate].
      cbn [mbind result_bind] in Em. injection Em as <-. simpl.
      apply Forall2_app; [apply Hc'; reflexivity|apply IHcs; reflexivity].
  - intros [= <-]. rewrite (preorder_unfold (Asset n)), preorder_unfold.
    constructor; [simpl; auto|].
    unfold kids. simpl obj. rewrite Ec, Hc. constructor.
Qed.

Lemma URL_not_convertible (a : asset) :
  type (obj a) = Some URL -> convertible a = false.
Proof. unfold convertible, shouldConvertPath. intros ->. reflexivity. Qed.

(** C1 (as amended): on a tree whose FILE, DIRECTORY and FOLDER nodes
    carry absolute URIs in normal form located under the project root [R],
    [recursiveAbsoluteToRelativePath] with [R] followed by
    [recursiveRelativeToAbsolutePath] with the same [R] gives back the
    original tree, so the URI of every node is the original one; and under
    either conversion a URL node keeps its [uri]. *)
Theorem path_conversion_roundtrip (R : string) (t : asset) :
  path.isAbsolute R = true ->
  Forall (fun x => convertible x = true ->
                   exists u, uri (obj x) = Some u /\ canonical_under R u)
    (preorder t) ->
  (exists t1,
     recursiveAbsoluteToRelativePath cwd (Some R) (Some t) = Ok (Some t1)
     /\ recursiveRelativeToAbsolutePath cwd (Some R) (Some t1)
        = Ok (Some t))
  /\ (forall (pp : option string) (a a' : asset),
        recursiveAbsoluteToRelativePath cwd pp (Some a) = Ok (Some a')
        \/ recursiveRelativeToAbsolutePath cwd pp (Some a) = Ok (Some a') ->
        Forall2 (fun x x' =>
                   type (obj x') = type (obj x)
                   /\ (type (obj x) = Some URL -> uri (obj x') = uri (obj x)))
          (preorder a) (preorder a')).
Proof.
  intros Habs H. split.
  - destruct (_recursivePathConversion_roundtrip R t Habs H)
      as (t1 & Ea & Eb).
    exists t1. unfold recursiveAbsoluteToRelativePath,
      recursiveRelativeToAbsolutePath, recursivePathConversion.
    rewrite Ea, Eb. split; reflexivity.
  - intros pp a a' Hr.
    assert (Hf : Forall2 (fun x x' =>
                   type (obj x') = type (obj x)
                   /\ (convertible x = false -> uri (obj x') = uri (obj x)))
                   (preorder a) (preorder a')).
    { unfold recursiveAbsoluteToRelativePath,
        recursiveRelativeToAbsolutePath, recursivePathConversion in Hr.
      destruct pp as [p|].
      - destruct Hr as [Hr|Hr];
          destruct (_recursivePathConversion (Some p) a _) as [r|] eqn:E;
          try discriminate; injection Hr as <-;
          eapply _recursivePathConversion_frame; exact E.
      - assert (a' = a) as -> by (destruct Hr as [Hr|Hr]; congruence).
        clear Hr. induction (preorder a); constructor; auto. }
    eapply Forall2_impl; [exact Hf|]. simpl.
    intros x x' [Ht Hu]. split; [exact Ht|].
    intros Hurl. apply Hu, URL_not_convertible, Hurl.
Qed.

End RoundTrip.

(** ** The copy and the caller's objects *)

Section StoreFacts.

Lemma region_unfold (base : nat) (a : asset) :
  region base a
  = match children (obj a) with
    | None => [set_children (obj a) None]
    | Some cs =>
        region_list base cs
        ++ [set_children (obj a) (Some (child_locs base (map size cs)))]
    end.
Proof.
  destruct a as [n]. simpl. destruct (children n) as [cs|]; [|reflexivity].
  f_equal. generalize base. induction cs as [|c cs IH]; intros b; [reflexivity|].
  simpl. rewrite IH. reflexivity.
Qed.

Lemma size_unfold (a : asset) :
  size a = S (foldr (fun c n => (size c + n)%nat) 0%nat (kids a)).
Proof. destruct a as [n]. unfold kids. simpl. destruct (children n); reflexivity. Qed.

Lemma length_region_list (base : nat) (cs : list asset) :
  Forall (fun c => forall b, length (region b c) = size c) cs ->
  length (region_list base cs) = foldr (fun c n => (size c + n)%nat) 0%nat cs.
Proof.
  intros H. revert base. induction H as [|c cs Hc _ IH]; intros base;
    [reflexivity|].
  simpl. rewrite length_app, Hc, IH. reflexivity.
Qed.

Lemma length_region (base : nat) (a : asset) :
  length (region base a) = size a.
Proof.
  revert base. induction a as [n IH] using asset_ind'. intros base.
  rewrite region_unfold, size_unfold. unfold kids. simpl obj.
  destruct (children n) as [cs|]; [|reflexivity].
  rewrite length_app, length_region_list by auto. simpl. lia.
Qed.

Lemma length_region_list' (base : nat) (cs : list asset) :
  length (region_list base cs) = foldr (fun c n => (size c + n)%nat) 0%nat cs.
Proof.
  apply length_region_list, Forall_forall. intros c _ b. apply length_region.
Qed.

Lemma parse_unfold (a : asset) (s : store) :
  parse a s
  = match children (obj a) with
    | None => (length s, s ++ [set_children (obj a) None])
    | Some cs =>
        let r := parse_list cs s in
        (length r.2, r.2 ++ [set_children (obj a) (Some r.1)])
    end.
Proof.
  destruct a as [n]. simpl. destruct (children n) as [cs|]; [|reflexivity].
  assert (E : forall s,
             (fix go (cs : list asset) (s : store) : list loc * store :=
                match cs with
                | [] => ([], s)
                | c :: rest =>
                    let r1 := parse c s in
                    let r2 := go rest r1.2 in (r1.1 :: r2.1, r2.2)
                end) cs s = parse_list cs s).
  { induction cs as [|c cs IH]; intros s0; [reflexivity|].
    simpl. rewrite IH. reflexivity. }
  rewrite E. reflexivity.
Qed.

(** [parse] appends the region of the tree and answers its last index. *)
Lemma parse_region (a : asset) (s : store) :
  parse a s = ((length s + size a - 1)%nat, s ++ region (length s) a).
Proof.
  revert s. induction a as [n IH] using asset_ind'. intros s.
  rewrite parse_unfold, region_unfold, size_unfold. unfold kids. simpl obj.
  destruct (children n) as [cs|]; [|simpl; f_equal; lia].
  specialize (IH cs eq_refl).
  assert (E : parse_list cs s
              = (child_locs (length s) (map size cs),
                 s ++ region_list (length s) cs)).
  { clear -IH. revert s. induction IH as [|c cs Hc _ IHcs]; intros s.
    - simpl. rewrite app_nil_r. reflexivity.
    - simpl. rewrite Hc. simpl. rewrite IHcs. rewrite length_app, length_region.
      rewrite <- app_assoc. reflexivity. }
  rewrite E. simpl. rewrite length_app, length_region_list'.
  rewrite <- app_assoc. f_equal. simpl. lia.
Qed.

Lemma _recursivePathConversion_st_unfold (fuel : nat)
    (pp : option string) (l : loc) (w : workerFn) (s : store) :
  _recursivePathConversion_st (S fuel) pp l w s
  = match s !! l with
    | None => Stuck
    | Some o =>
        match (if shouldConvertPath (Some o)
               then match w _ pp (Some o) with
                    | Ok u => Ret tt (<[l := set_uri o u]> s)
                    | Throw e => Raise e s
                    end
               else Ret tt s) with
        | Ret _ s =>
            match children o with
            | None => Ret l s
            | Some ls => convert_children_st fuel pp w l ls s
            end
        | Raise e s => Raise e s
        | Stuck => Stuck
        end
    end.
Proof.
  cbn [_recursivePathConversion_st]. destruct (s !! l) as [o|]; [|reflexivity].
  destruct (if shouldConvertPath (Some o) then _ else _) as [[] s1|e s1|];
    try reflexivity.
  destruct (children o) as [ls|]; [|reflexivity].
  generalize s1. induction ls as [|c ls IH]; intros s2; [reflexivity|].
  simpl. destruct (_recursivePathConversion_st fuel pp c w s2);
    try reflexivity. apply IH.
Qed.

Lemma size_sum (a : asset) : size a = S (sum_list (map size (kids a))).
Proof.
  rewrite size_unfold. f_equal. induction (kids a) as [|c cs IH];
    [reflexivity|]. simpl. rewrite IH. reflexivity.
Qed.

Lemma length_region_list_sum (base : nat) (cs : list asset) :
  length (region_list base cs) = sum_list (map size cs).
Proof.
  rewrite length_region_list'. induction cs as [|c cs IH]; [reflexivity|].
  simpl. rewrite IH. reflexivity.
Qed.

Lemma depth_kids (a : asset) (fuel : nat) :
  (depth a <= S fuel)%nat -> Forall (fun c => (depth c <= fuel)%nat) (kids a).
Proof.
  destruct a as [n]. unfold kids. simpl.
  destruct (children n) as [cs|]; [|constructor].
  simpl. intros H. apply le_S_n in H.
  induction cs as [|c cs IH]; [constructor|].
  simpl in H. constructor; [lia|]. apply IH. lia.
Qed.

Lemma depth_pos (a : asset) : (1 <= depth a)%nat.
Proof. destruct a as [n]. simpl. destruct (children n); lia. Qed.

Lemma lookup_region_root (s0 rs t : list (node loc)) (o : node loc) (l : loc) :
  l = (length s0 + length rs)%nat ->
  (s0 ++ (rs ++ [o]) ++ t) !! l = Some o.
Proof.
  intros ->. rewrite <- app_assoc, app_assoc. rewrite <- length_app.
  apply list_lookup_middle. reflexivity.
Qed.

Lemma insert_region_root (s0 rs t : list (node loc)) (o o' : node loc)
    (l : loc) :
  l = (length s0 + length rs)%nat ->
  <[l := o']> (s0 ++ (rs ++ [o]) ++ t) = s0 ++ (rs ++ [o']) ++ t.
Proof.
  intros ->. rewrite <- !app_assoc. rewrite insert_app_r.
  f_equal. replace (length rs) with (length rs + 0)%nat by lia.
  rewrite insert_app_r. reflexivity.
Qed.

End StoreFacts.

Section InPlace.

Variable pp : option string.
Variable w : workerFn.
Hypothesis Hw : reads_uri_only w.

Lemma tracks_children (fuel : nat) (l : loc) (cs : list asset) :
  Forall (fun c => tracks pp w c fuel) cs ->
  forall (s0 tl : store),
    match mapR (fun c => _recursivePathConversion pp c w) cs with
    | Ok cs' =>
        convert_children_st fuel pp w l
          (child_locs (length s0) (map size cs))
          (s0 ++ region_list (length s0) cs ++ tl)
        = Ret l (s0 ++ region_list (length s0) cs' ++ tl)
        /\ map size cs' = map size cs
    | Throw e =>
        exists r', length r' = length (region_list (length s0) cs)
          /\ convert_children_st fuel pp w l
               (child_locs (length s0) (map size cs))
               (s0 ++ region_list (length s0) cs ++ tl)
             = Raise e (s0 ++ r' ++ tl)
    end.
Proof.
  induction 1 as [|c cs Hc _ IH]; intros s0 tl; [split; reflexivity|].
  cbn [mapR map child_locs region_list convert_children_st].
  specialize (Hc s0 (region_list (length s0 + size c) cs ++ tl)).
  rewrite <- (app_assoc (region (length s0) c)).
  destruct (_recursivePathConversion pp c w) as [c'|e].
  - destruct Hc as [Hrun Hsize]. rewrite Hrun. cbn [mbind result_bind].
    specialize (IH (s0 ++ region (length s0) c') tl).
    rewrite length_app, length_region, Hsize, <- app_assoc in IH.
    destruct (mapR _ cs) as [cs'|e].
    + destruct IH as [Hrest Hsizes]. rewrite Hrest. cbn [mbind result_bind].
      split.
      * cbn [region_list]. rewrite Hsize, <- !app_assoc. reflexivity.
      * cbn [map]. rewrite Hsize, Hsizes. reflexivity.
    + destruct IH as (r' & Hlen & Hrest). rewrite Hrest.
      exists (region (length s0) c' ++ r'). split.
      * rewrite !length_app, !length_region, Hsize, Hlen. reflexivity.
      * rewrite <- !app_assoc. reflexivity.
  - destruct Hc as (r' & Hlen & Hrun). rewrite Hrun.
    exists (r' ++ region_list (length s0 + size c) cs). split.
    + rewrite !length_app, length_region, Hlen. reflexivity.
    + rewrite <- !app_assoc. reflexivity.
Qed.

Lemma tracks_all (t : asset) :
  forall fuel, (depth t <= fuel)%nat -> tracks pp w t fuel.
Proof.
  induction t as [n IH] using asset_ind'. intros fuel Hfuel.
  destruct fuel as [|fuel]; [pose proof (depth_pos (Asset n)); lia|].
  apply depth_kids in Hfuel. unfold kids in Hfuel. simpl obj in Hfuel.
  intros s0 tl.
  rewrite _recursivePathConversion_unfold, _recursivePathConversion_st_unfold.
  rewrite region_unfold, size_sum. unfold kids, convertible. simpl obj.
  destruct (children n) as [cs|] eqn:Ec.
  - (* an asset with children *)
    specialize (IH cs eq_refl). simpl default in *.
    assert (Htr : Forall (fun c => tracks pp w c fuel) cs).
    { clear -IH Hfuel. induction IH as [|c cs Hc _ IHcs]; [constructor|].
      inversion Hfuel; subst. constructor; auto. }
    set (ls := child_locs (length s0) (map size cs)).
    set (o := set_children n (Some ls)).
    assert (Hl : (length s0 + S (sum_list (map size cs)) - 1)%nat
                 = (length s0 + length (region_list (length s0) cs))%nat)
      by (rewrite length_region_list_sum; lia).
    rewrite Hl.
    rewrite (lookup_region_root s0 _ tl o) by reflexivity.
    change (shouldConvertPath (Some o)) with (shouldConvertPath (Some n)).
    rewrite (Hw loc asset pp o n) by reflexivity.
    pose proof (tracks_children fuel
                  (length s0 + length (region_list (length s0) cs))%nat
                  cs Htr) as Hkids.
    destruct (shouldConvertPath (Some n)).
    + destruct (w asset pp (Some n)) as [u|e].
      * cbn [mbind result_bind].
        rewrite (insert_region_root s0 _ tl o) by reflexivity.
        change (children o) with (Some ls). cbv iota.
        specialize (Hkids s0 ([set_uri o u] ++ tl)).
        rewrite <- (app_assoc (region_list (length s0) cs)).
        destruct (mapR _ cs) as [cs'|e].
        -- destruct Hkids as [Hrun Hsizes]. fold ls in Hrun. rewrite Hrun.
           cbn [mbind result_bind]. rewrite region_unfold, size_sum.
           unfold kids. simpl obj. cbn [children set_children default].
           unfold id. rewrite Hsizes. split; [|reflexivity].
           rewrite <- !app_assoc. reflexivity.
        -- destruct Hkids as (r' & Hlen & Hrun). fold ls in Hrun. rewrite Hrun.
           exists (r' ++ [set_uri o u]). split.
           ++ rewrite length_app, Hlen, length_region_list_sum. simpl. lia.
           ++ rewrite <- !app_assoc. reflexivity.
      * cbn [mbind result_bind].
        exists (region_list (length s0) cs ++ [o]). split; [|reflexivity].
        rewrite length_app, length_region_list_sum. simpl. lia.
    + cbn [mbind result_bind].
      change (children o) with (Some ls). cbv iota.
      specialize (Hkids s0 ([o] ++ tl)).
      rewrite <- (app_assoc (region_list (length s0) cs)).
      destruct (mapR _ cs) as [cs'|e].
      * destruct Hkids as [Hrun Hsizes]. fold ls in Hrun. rewrite Hrun.
        cbn [mbind result_bind]. rewrite region_unfold, size_sum.
        unfold kids. simpl obj. cbn [children set_children default].
        unfold id. rewrite Hsizes. split; [|reflexivity].
        rewrite <- !app_assoc. reflexivity.
      * destruct Hkids as (r' & Hlen & Hrun). fold ls in Hrun. rewrite Hrun.
        exists (r' ++ [o]). split.
        -- rewrite length_app, Hlen, length_region_list_sum. simpl. lia.
        -- rewrite <- !app_assoc. reflexivity.
  - (* a leaf *)
    simpl default. simpl sum_list.
    set (o := set_children n (@None (list loc))).
    replace (length s0 + 1 - 1)%nat with (length s0 + length (@nil (node loc)))%nat
      by (simpl; lia).
    change (s0 ++ [o] ++ tl) with (s0 ++ ([] ++ [o]) ++ tl).
    rewrite (lookup_region_root s0 [] tl o) by reflexivity.
    change (shouldConvertPath (Some o)) with (shouldConvertPath (Some n)).
    rewrite (Hw loc asset pp o n) by reflexivity.
    destruct (shouldConvertPath (Some n)).
    + destruct (w asset pp (Some n)) as [u|e].
      * cbn [mbind result_bind].
        rewrite (insert_region_root s0 [] tl o) by reflexivity.
        change (children o) with (@None (list loc)). cbv iota.
        rewrite region_unfold, size_sum. unfold kids. simpl obj.
        assert (Ec' : children (set_uri n u) = None) by (destruct n; exact Ec).
        rewrite Ec'. split; reflexivity.
      * cbn [mbind result_bind]. exists [o]. split; reflexivity.
    + cbn [mbind result_bind].
      change (children o) with (@None (list loc)). cbv iota.
      rewrite region_unfold, size_sum. unfold kids. simpl obj.
      rewrite Ec. split; reflexivity.
Qed.

End InPlace.

Section Copy.

(** [JSON.stringify] reads the tree the reference leads to. *)
Lemma stringify_repr (P : loc -> Prop) (s : store) (t : asset) :
  forall (l : loc) (fuel : nat),
    repr_in P s l t -> (depth t <= fuel)%nat -> stringify fuel s l = Some t.
Proof.
  induction t as [n IH] using asset_ind'. intros l fuel Hr Hfuel.
  destruct fuel as [|fuel]; [pose proof (depth_pos (Asset n)); lia|].
  apply depth_kids in Hfuel. unfold kids in Hfuel. simpl obj in Hfuel.
  cbn [stringify].
  inversion Hr as [l0 o a _ Hl Hc Ho|l0 o ls a cs _ Hl Hc Ho Hall]; subst;
    simpl obj in Ho; rewrite Hl, Hc.
  - rewrite <- Ho. reflexivity.
  - assert (Ecs : children n = Some cs) by (rewrite Ho; reflexivity).
    assert (Hm : mapM (stringify fuel s) ls = Some cs).
    { apply mapM_Some. specialize (IH _ Ecs).
      rewrite Ecs in Hfuel. simpl in Hfuel. clear -IH Hfuel Hall.
      induction Hall as [|l c ls cs Hlc _ IHall]; [constructor|].
      inversion IH; subst. inversion Hfuel; subst. constructor; auto. }
    rewrite Hm, <- Ho. reflexivity.
Qed.

(** A tree stays where it is when its objects are left alone. *)
Lemma repr_unchanged (P : loc -> Prop) (s s' : store) (t : asset) :
  unchanged s s' ->
  forall l : loc, repr_in P s l t -> repr_in P s' l t.
Proof.
  intros Hun. induction t as [n IH] using asset_ind'. intros l Hr.
  inversion Hr as [l0 o a HP Hl Hc Ho|l0 o ls a cs HP Hl Hc Ho Hall]; subst;
    simpl obj in Ho.
  - eapply repr_leaf; eauto.
  - eapply repr_node; eauto.
    assert (Ecs : children n = Some cs) by (rewrite Ho; reflexivity).
    specialize (IH _ Ecs).
    clear -IH Hall. induction Hall as [|l c ls cs Hlc _ IHall]; [constructor|].
    inversion IH; subst. constructor; auto.
Qed.

(** The region [parse] builds represents the tree, through references
    that did not exist before. *)
Lemma repr_region (m : nat) (t : asset) :
  forall (s0 tl : store),
    (m <= length s0)%nat ->
    repr_in (fun x => (m <= x)%nat) (s0 ++ region (length s0) t ++ tl)
      (length s0 + size t - 1)%nat t.
Proof.
  induction t as [n IH] using asset_ind'. intros s0 tl Hm.
  rewrite region_unfold, size_sum. unfold kids. simpl obj.
  destruct (children n) as [cs|] eqn:Ec.
  - simpl default. specialize (IH cs eq_refl).
    set (ls := child_locs (length s0) (map size cs)).
    set (o := set_children n (Some ls)).
    assert (Hl : (length s0 + S (sum_list (map size cs)) - 1)%nat
                 = (length s0 + length (region_list (length s0) cs))%nat)
      by (rewrite length_region_list_sum; lia).
    rewrite Hl.
    apply (repr_node _ _ _ o ls (Asset n) cs).
    + lia.
    + apply lookup_region_root. reflexivity.
    + reflexivity.
    + destruct n; simpl in *; subst; reflexivity.
    + rewrite <- (app_assoc (region_list (length s0) cs)).
      generalize ([o] ++ tl). subst ls. clear -IH Hm.
      revert s0 Hm. induction IH as [|c cs Hc _ IHcs]; intros s0 Hm tl';
        [constructor|].
      cbn [map child_locs region_list]. constructor.
      * rewrite <- app_assoc. apply Hc. exact Hm.
      * assert (Hm' : (m <= length (s0 ++ region (length s0) c))%nat)
          by (rewrite length_app; lia).
        specialize (IHcs _ Hm' tl').
        rewrite length_app, length_region, <- app_assoc in IHcs.
        rewrite <- app_assoc. exact IHcs.
  - simpl default. simpl sum_list.
    replace (length s0 + 1 - 1)%nat with (length s0) by lia.
    apply (repr_leaf _ _ _ (set_children n None) (Asset n)).
    + lia.
    + apply list_lookup_middle. reflexivity.
    + reflexivity.
    + destruct n; simpl in *; subst; reflexivity.
Qed.

Lemma unchanged_app (s r : store) : unchanged s (s ++ r).
Proof. intros k o H. apply lookup_app_l_Some. exact H. Qed.

(** With a project path that is a string the two conversion functions of
    the module return: [path.resolve] and [path.relative] only throw on an
    argument that is not a string. *)
Lemma resolve_loop_strings (l : list string) (acc : string) :
  exists r, path.resolve_loop (map Some l) acc = Ok r.
Proof.
  revert acc. induction l as [|p l IH]; intros acc; simpl; [eauto|].
  destruct (String.eqb p ""); [apply IH|].
  destruct (path.isAbsolute p); [eauto|apply IH].
Qed.

Lemma resolve_strings (cwd : string) (l : list string) :
  exists r, path.resolve cwd (map Some l) = Ok r.
Proof.
  unfold path.resolve.
  replace (rev (map Some l) ++ [Some cwd]) with (map Some (rev l ++ [cwd]))
    by (rewrite map_app, map_rev; reflexivity).
  destruct (resolve_loop_strings (rev l ++ [cwd]) "") as [[rp ab] ->].
  cbn [mbind result_bind fst snd]. destruct ab; [eauto|].
  destruct (String.eqb _ ""); eauto.
Qed.

Lemma named_conversions_return (cwd p : string) {C} (n : node C) :
  (exists u, relativeToAbsolutePath cwd (Some p) (Some n) = Ok u)
  /\ (exists u, absoluteToRelativePath cwd (Some p) (Some n) = Ok u).
Proof.
  unfold relativeToAbsolutePath, absoluteToRelativePath.
  destruct (uri n) as [u|]; [|split; eauto]. split.
  - destruct (resolve_strings cwd [p; u]) as [r E]. simpl in E. rewrite E. eauto.
  - destruct (path.isAbsolute u); [|eauto]. cbn [negb]. unfold path.relative.
    destruct (String.eqb p u); [eauto|].
    destruct (resolve_strings cwd [p]) as [r1 E1].
    destruct (resolve_strings cwd [u]) as [r2 E2]. simpl in E1, E2.
    rewrite E1, E2. cbn [mbind result_bind].
    destruct (String.eqb r1 r2); eauto.
Qed.

Lemma reads_uri_only_relativeToAbsolutePath (cwd : string) :
  reads_uri_only (@relativeToAbsolutePath cwd).
Proof. intros C D pp n m E. unfold relativeToAbsolutePath. rewrite E. reflexivity. Qed.

Lemma reads_uri_only_absoluteToRelativePath (cwd : string) :
  reads_uri_only (@absoluteToRelativePath cwd).
Proof. intros C D pp n m E. unfold absoluteToRelativePath. rewrite E. reflexivity. Qed.

(** C5: [recursivePathConversion] leaves the tree it is given as it was:
    whatever the project path and the conversion function (one that reads
    the [uri] of the asset, as [relativeToAbsolutePath] and
    [absoluteToRelativePath] do), the call ends, every object of the
    caller's store has the attributes it had, and the reference still
    leads to the same tree; when the project path is a string the tree
    returned is a copy made of objects that did not exist before, holding
    the converted tree.  (With a null project path the argument itself is
    returned, untouched.) *)
Theorem recursivePathConversion_leaves_input
    (pp : option string) (w : workerFn) (s : store) (l : loc) (t : asset)
    (fuel : nat) :
  reads_uri_only w ->
  repr s l t ->
  (depth t <= fuel)%nat ->
  match recursivePathConversion pp (Some t) w with
  | Ok r =>
      exists (s' : store) (l' : loc),
        recursivePathConversion_st fuel pp (Some l) w s = Ret (Some l') s'
        /\ unchanged s s'
        /\ repr s' l t
        /\ exists t', r = Some t'
             /\ match pp with
                | Some _ => repr_in (fun x => (length s <= x)%nat) s' l' t'
                | None => l' = l /\ s' = s
                end
  | Throw e =>
      exists s' : store,
        recursivePathConversion_st fuel pp (Some l) w s = Raise e s'
        /\ unchanged s s'
        /\ repr s' l t
  end.
Proof.
  intros Hw Hr Hfuel. unfold recursivePathConversion, recursivePathConversion_st.
  destruct pp as [p|].
  2:{ exists s, l. repeat split; auto. - intros k o H; exact H.
      - exists t. auto. }
  rewrite (stringify_repr _ s t l fuel Hr Hfuel).
  rewrite parse_region. cbn [fst snd].
  pose proof (tracks_all (Some p) w Hw t fuel Hfuel s []) as Htr.
  rewrite !app_nil_r in Htr.
  destruct (_recursivePathConversion (Some p) t w) as [t'|e].
  - destruct Htr as [Hrun Hsize]. rewrite app_nil_r in Hrun. rewrite Hrun.
    cbn [mbind result_bind].
    exists (s ++ region (length s) t'), (length s + size t - 1)%nat.
    split; [reflexivity|]. split; [apply unchanged_app|].
    split; [eapply repr_unchanged; [apply unchanged_app|exact Hr]|].
    exists t'. split; [reflexivity|].
    rewrite <- Hsize.
    pose proof (repr_region (length s) t' s [] (le_n _)) as H.
    rewrite app_nil_r in H. exact H.
  - destruct Htr as (r' & Hlen & Hrun). rewrite Hrun.
    exists (s ++ r' ++ []). split; [reflexivity|].
    split; [apply unchanged_app|].
    eapply repr_unchanged; [apply unchanged_app|exact Hr].
Qed.

End Copy.

(** ** The flat-array variants and a null project root *)

(** C4: the flat-array variants do not keep to the no-throw policy.  With a
    null project root [recursiveAbsoluteToRelativePath] returns its argument,
    but [absoluteToRelativePathForArray] and [relativeToAbsolutePathForArray]
    have no such guard: the per-node converter hands the null to
    [path.relative] or [path.resolve], which throws a [TypeError]. *)
Theorem convertPathForArray_null_root_throws :
  absoluteToRelativePathForArray sample_cwd None (Some [file "/proj/a.txt"])
  = Throw ERR_INVALID_ARG_TYPE
  /\ relativeToAbsolutePathForArray sample_cwd None (Some [file "a.txt"])
     = Throw ERR_INVALID_ARG_TYPE
  /\ absoluteToRelativePath sample_cwd None (Some (obj (file "/proj/a.txt")))
     = Throw ERR_INVALID_ARG_TYPE
  /\ relativeToAbsolutePath sample_cwd None (Some (obj (file "a.txt")))
     = Throw ERR_INVALID_ARG_TYPE
  /\ recursiveAbsoluteToRelativePath sample_cwd None
       (Some (file "/proj/a.txt"))
     = Ok (Some (file "/proj/a.txt")).
Proof. repeat split; reflexivity. Qed.

(** ** Instances and counterexamples *)

Lemma path_conversion_roundtrip_witness :
  exists t1,
    recursiveAbsoluteToRelativePath sample_cwd (Some "/proj")
      (Some sample_project) = Ok (Some t1)
    /\ recursiveRelativeToAbsolutePath sample_cwd (Some "/proj") (Some t1)
       = Ok (Some sample_project).
Proof.
  refine (proj1 (path_conversion_roundtrip sample_cwd "/proj" sample_project
                   eq_refl _)).
  repeat constructor.
  - intros _. eexists. split; [reflexivity|]. exists []. split; [constructor|reflexivity].
  - intros _. eexists. split; [reflexivity|]. exists ["a.txt"].
    split; [repeat constructor|reflexivity].
  - intros H. discriminate H.
  - intros _. eexists. split; [reflexivity|]. exists ["src"].
    split; [repeat constructor|reflexivity].
  - intros _. eexists. split; [reflexivity|]. exists ["src"; "main.py"].
    split; [repeat constructor|reflexivity].
Defined.

(** A directory URI with a trailing separator does not come back. *)
Lemma path_conversion_roundtrip_counterexample :
  exists t1 t2,
    recursiveAbsoluteToRelativePath sample_cwd (Some "/proj")
      (Some (directory "/proj/data/" [])) = Ok (Some t1)
    /\ recursiveRelativeToAbsolutePath sample_cwd (Some "/proj") (Some t1)
       = Ok (Some t2)
    /\ uri (obj t2) = Some "/proj/data"
    /\ uri (obj t2) <> uri (obj (directory "/proj/data/" [])).
Proof.
  do 2 eexists. split; [reflexivity|]. split; [reflexivity|].
  split; [reflexivity|]. discriminate.
Qed.

Lemma findAllDescendantAssetsByUri_witness :
  findAllDescendantAssetsByUri (Some "/proj/src/pkg/mod.py") (Some "/proj")
  = Some ["/proj/src/pkg"; "/proj/src"; "/proj"].
Proof.
  refine (proj1 findAllDescendantAssetsByUri_spec "/proj"
            ["src"; "pkg"; "mod.py"] _ _).
  - discriminate.
  - repeat constructor.
Defined.

(** The example of the specification: the root is in the list. *)
Lemma findAllDescendantAssetsByUri_counterexample :
  findAllDescendantAssetsByUri (Some "/proj/src/pkg/mod.py") (Some "/proj")
  <> Some ["/proj/src/pkg"; "/proj/src"].
Proof. intros H. vm_compute in H. discriminate H. Qed.

Lemma filterIncludedFileAssets_witness :
  is_Some (filterIncludedFileAssets sample_handler
             (Some (file "/proj/a.txt"))).
Proof.
  refine (proj1 (proj2 (proj2 (filterIncludedFileAssets_spec sample_handler
                                 (file "/proj/a.txt")))) _).
  reflexivity.
Defined.

(** An entry without [include] drops the asset although its [include] is
    not [false]. *)
Lemma filterIncludedFileAssets_counterexample :
  filterIncludedFileAssets sample_handler
    (Some (file_with "/proj/a.txt"
             [MetadataEntry sample_handler JUndefined []])) = None
  /\ ~ (exists m,
          getHandlerMetadata (Some sample_handler)
            (metadata (obj (file_with "/proj/a.txt"
                              [MetadataEntry sample_handler JUndefined []])))
          = Some m
          /\ m_include m = JBool false).
Proof.
  split; [reflexivity|]. intros (m & E & H).
  injection E as <-. discriminate H.
Qed.

Lemma filterIncludedFileAssets_missing_include_witness :
  filterIncludedFileAssets sample_handler
    (Some (file_with "/proj/a.txt"
             [MetadataEntry "StatWrap.PythonHandler" (JBool true) [];
              MetadataEntry sample_handler JUndefined []])) = None.
Proof.
  refine (filterIncludedFileAssets_missing_include sample_handler
            (file_with "/proj/a.txt"
               [MetadataEntry "StatWrap.PythonHandler" (JBool true) [];
                MetadataEntry sample_handler JUndefined []])
            [MetadataEntry "StatWrap.PythonHandler" (JBool true) []] []
            (MetadataEntry sample_handler JUndefined []) _ eq_refl _ eq_refl
            eq_refl).
  - discriminate.
  - repeat constructor. discriminate.
Defined.

Lemma findDescendantAssetByUri_witness :
  findDescendantAssetByUri (Some sample_project) (uri (obj sample_project))
  = Some sample_project.
Proof.
  refine (proj1 (proj2 findDescendantAssetByUri_spec) sample_project "/proj"
            eq_refl _).
  discriminate.
Defined.

Lemma getExtensionFromUri_witness :
  getExtensionFromUri (ItemString "a/b/file.tar.gz") = "gz".
Proof.
  refine (proj2 (proj1 (proj2 (proj2 (proj2 getExtensionFromUri_spec)))
                   "a/b/file.tar.gz" "file.tar.gz" _)
            "file.tar" "gz" eq_refl eq_refl).
  split; [reflexivity|]. right. exists "a/b", "/"%char. split; reflexivity.
Defined.

Lemma recursiveAbsoluteToRelativePath_relative_input_witness :
  recursiveAbsoluteToRelativePath sample_cwd (Some "/proj")
    (Some sample_relative)
  = Ok (Some (directory_null [file_null; link "https://example.org/data"])).
Proof.
  refine (proj1 (recursiveAbsoluteToRelativePath_relative_input sample_cwd
                   "/proj" sample_relative _)).
  repeat (constructor; [intros _; reflexivity|]). constructor.
Defined.

Lemma recursivePathConversion_leaves_input_witness :
  exists (s' : store) (l' : loc),
    recursiveAbsoluteToRelativePath_st sample_cwd 2 (Some "/proj")
      (Some 1%nat) sample_store
    = Ret (Some l') s'
    /\ unchanged sample_store s'
    /\ repr s' 1%nat sample_stored
    /\ exists t',
         Some (directory "" [file "a.txt"]) = Some t'
         /\ repr_in (fun x => (length sample_store <= x)%nat) s' l' t'.
Proof.
  refine (recursivePathConversion_leaves_input (Some "/proj")
            (@absoluteToRelativePath sample_cwd) sample_store 1%nat
            sample_stored 2%nat
            (reads_uri_only_absoluteToRelativePath sample_cwd) _ _).
  - eapply repr_node; [exact I|reflexivity|reflexivity|reflexivity|].
    constructor; [|constructor].
    eapply repr_leaf; [exact I|reflexivity|reflexivity|reflexivity].
  - simpl. lia.
Defined.

(** * Further properties *)

(** ** Children, entry points and handler metadata *)

Section MoreSearch.

Lemma in_preorder_self (a : asset) : a ∈ preorder a.
Proof. rewrite preorder_unfold. apply list_elem_of_here. Qed.

Lemma in_concat_map {A B} (g : A -> list B) (cs : list A) (c : A) (x : B) :
  c ∈ cs -> x ∈ g c -> x ∈ concat (map g cs).
Proof.
  intros Hc. induction Hc as [c cs|c c' cs _ IH]; intros Hx; simpl;
    apply elem_of_app; [left; exact Hx|right; apply IH; exact Hx].
Qed.

Lemma in_preorder_kid (a c x : asset) :
  c ∈ kids a -> x ∈ preorder c -> x ∈ preorder a.
Proof.
  intros Hc Hx. rewrite preorder_unfold. apply list_elem_of_further.
  eapply in_concat_map; eassumption.
Qed.

Lemma find_Some_elem {A} (f : A -> bool) (l : list A) (x : A) :
  List.find f l = Some x -> x ∈ l /\ f x = true.
Proof.
  induction l as [|y l IH]; simpl; [discriminate|].
  destruct (f y) eqn:E.
  - intros [= <-]. split; [apply list_elem_of_here|exact E].
  - intros H. destruct (IH H). split; [apply list_elem_of_further|]; assumption.
Qed.

(** X1: [findChildAssetByUri] answers a direct child that carries the
    searched uri, null exactly when no direct child does (or when an argument
    is absent), and whatever it finds [findDescendantAssetByUri] finds too:
    the latter then answers an asset with that uri. *)
Theorem findChildAssetByUri_sound :
  (forall (a : asset) (u : string) (c : asset),
     findChildAssetByUri (Some a) (Some u) = Some c ->
     u <> "" /\ c ∈ kids a /\ uri (obj c) = Some u)
  /\ (forall (a : asset) (u : string),
        u <> "" ->
        (findChildAssetByUri (Some a) (Some u) = None <->
         Forall (fun c => uri (obj c) <> Some u) (kids a)))
  /\ (forall (a : asset) (u : string) (c : asset),
        findChildAssetByUri (Some a) (Some u) = Some c ->
        exists d, findDescendantAssetByUri (Some a) (Some u) = Some d
                  /\ uri (obj d) = Some u /\ d ∈ preorder a).
Proof.
  assert (Hsound : forall (a : asset) (u : string) (c : asset),
     findChildAssetByUri (Some a) (Some u) = Some c ->
     u <> "" /\ c ∈ kids a /\ uri (obj c) = Some u).
  { intros a u c. unfold findChildAssetByUri, str_truthy, kids.
    destruct (String.eqb_spec u "") as [->|Hu]; simpl; [discriminate|].
    destruct (children (obj a)) as [cs|]; [|discriminate].
    intros H. apply find_Some_elem in H as [Hin Hc].
    apply bool_decide_eq_true in Hc. auto. }
  split; [exact Hsound|]. split.
  - intros a u Hu. unfold findChildAssetByUri, str_truthy, kids.
    destruct (String.eqb_spec u ""); [contradiction|]. simpl.
    destruct (children (obj a)) as [cs|]; simpl; [|split; auto].
    rewrite find_none_Forall. split; intros H;
      (eapply Forall_impl; [exact H|]); intros x Hx.
    + apply bool_decide_eq_false in Hx. exact Hx.
    + apply bool_decide_eq_false. exact Hx.
  - intros a u c H. destruct (Hsound a u c H) as (Hu & Hin & Hc).
    unfold findDescendantAssetByUri, str_truthy.
    destruct (String.eqb_spec u ""); [contradiction|]. simpl.
    rewrite findDescendantAssetByUri_obj_find.
    destruct (List.find (has_uri u) (preorder a)) as [d|] eqn:E.
    + apply find_Some_elem in E as [Hd Hu']. exists d.
      apply bool_decide_eq_true in Hu'. auto.
    + exfalso. apply find_none_Forall in E.
      rewrite Forall_forall in E.
      assert (Hcin : c ∈ preorder a)
        by (eapply in_preorder_kid; [exact Hin|apply in_preorder_self]).
      specialize (E c Hcin). unfold has_uri in E.
      apply bool_decide_eq_false in E. contradiction.
Qed.

Lemma findEntryPointAssets_obj_unfold (a : asset) (acc : list asset) :
  findEntryPointAssets_obj a acc
  = fold_left (fun l child => findEntryPointAssets_obj child l) (kids a)
      (if is_entrypoint a then acc ++ [a] else acc).
Proof.
  destruct a as [n]. unfold kids, is_entrypoint. simpl.
  destruct (children n); reflexivity.
Qed.

Lemma findEntryPointAssets_obj_preorder (a : asset) :
  forall acc : list asset,
    findEntryPointAssets_obj a acc
    = acc ++ List.filter is_entrypoint (preorder a).
Proof.
  induction a as [n IH] using asset_ind'. intros acc.
  rewrite findEntryPointAssets_obj_unfold, preorder_unfold.
  unfold kids. simpl obj. simpl List.filter.
  destruct (children n) as [cs|] eqn:Ec.
  - specialize (IH cs eq_refl). simpl default.
    assert (E : forall acc0,
               fold_left (fun l child => findEntryPointAssets_obj child l) cs
                 acc0
               = acc0 ++ List.filter is_entrypoint (concat (map preorder cs))).
    { clear Ec. induction IH as [|c cs Hc _ IHcs]; intros acc0; simpl.
      - rewrite app_nil_r. reflexivity.
      - rewrite IHcs, Hc, List.filter_app, <- app_assoc. reflexivity. }
    rewrite E. destruct (is_entrypoint (Asset n)); [|reflexivity].
    rewrite <- app_assoc. reflexivity.
  - simpl. destruct (is_entrypoint (Asset n)); [reflexivity|].
    rewrite app_nil_r. reflexivity.
Qed.

(** X2: [findEntryPointAssets] appends to the list it is given, which it
    leaves in front, the assets whose [attributes.entrypoint] is truthy, in
    pre-order: an asset before its descendants, the children from left to
    right.  An absent asset leaves the list as it is, and every asset it
    adds is a node of the tree. *)
Theorem findEntryPointAssets_preorder :
  (forall acc : list asset, findEntryPointAssets None acc = acc)
  /\ (forall (a : asset) (acc : list asset),
        findEntryPointAssets (Some a) acc
        = acc ++ List.filter is_entrypoint (preorder a))
  /\ (forall (a x : asset),
        x ∈ findEntryPointAssets (Some a) [] ->
        x ∈ preorder a /\ is_entrypoint x = true).
Proof.
  split; [reflexivity|]. split.
  - intros a acc. simpl. apply findEntryPointAssets_obj_preorder.
  - intros a x. simpl. rewrite findEntryPointAssets_obj_preorder. simpl.
    rewrite list_elem_of_In, List.filter_In, <- list_elem_of_In. tauto.
Qed.


End MoreSearch.

(** ** The inclusion filter, again *)

Section MoreInclusion.

Variable fid : string.

Lemma set_children_same (n : node asset) (cs : list asset) :
  children n = Some cs -> Asset (set_children n (Some cs)) = Asset n.
Proof. destruct n; simpl; intros ->; reflexivity. Qed.

(** A tree without excluded assets passes the filter unchanged. *)
Lemma filter_fixed (r : asset) :
  Forall (fun x => excluded fid x = false) (preorder r) ->
  filterIncludedFileAssets_obj fid r = Some r.
Proof.
  induction r as [n IH] using asset_ind'. intros H.
  rewrite preorder_unfold in H. apply Forall_cons in H as [Hn Hcs].
  rewrite filterIncludedFileAssets_obj_unfold, Hn. simpl obj.
  unfold kids in Hcs. simpl obj in Hcs.
  destruct (children n) as [cs|] eqn:Ec; [|reflexivity].
  specialize (IH cs eq_refl). simpl in Hcs.
  assert (E : omap (filterIncludedFileAssets_obj fid) cs = cs).
  { clear Ec. induction IH as [|c cs Hc _ IHcs]; [reflexivity|].
    simpl in Hcs. apply Forall_app in Hcs as [H1 H2].
    simpl. rewrite (Hc H1). simpl. f_equal. exact (IHcs H2). }
  rewrite E, set_children_same by exact Ec. reflexivity.
Qed.

(** X4: [filterIncludedFileAssets] is idempotent: filtering its own result
    gives that result again. *)
Theorem filterIncludedFileAssets_idempotent (a : option asset) :
  filterIncludedFileAssets fid (filterIncludedFileAssets fid a)
  = filterIncludedFileAssets fid a.
Proof.
  destruct a as [a|]; [|reflexivity]. simpl.
  destruct (filterIncludedFileAssets_obj fid a) as [r|] eqn:E; [|reflexivity].
  simpl. apply filter_fixed. eapply filter_no_excluded. exact E.
Qed.

Lemma concat_map_singleton {A B} (g : A -> B) (l : list A) :
  concat (map (fun x => [g x]) l) = map g l.
Proof. induction l as [|x l IH]; simpl; [|rewrite IH]; reflexivity. Qed.

(** What is read off the nodes of the filtered tree is, in order, part of
    what is read off the nodes of the original, for any reading that does not
    look at the children. *)
Lemma filter_sublist {B} (P : asset -> list B) :
  (forall (n : node asset) (cs : option (list asset)),
     P (Asset (set_children n cs)) = P (Asset n)) ->
  forall a r : asset,
    filterIncludedFileAssets_obj fid a = Some r ->
    concat (map P (preorder r)) `sublist_of` concat (map P (preorder a)).
Proof.
  intros HP a. induction a as [n IH] using asset_ind'. intros r.
  rewrite filterIncludedFileAssets_obj_unfold.
  destruct (excluded fid (Asset n)); [discriminate|]. intros [= <-].
  simpl obj. destruct (children n) as [cs|] eqn:Ec; [|reflexivity].
  specialize (IH cs eq_refl).
  rewrite (preorder_unfold (Asset n)), preorder_unfold.
  unfold kids. simpl obj. rewrite Ec.
  replace (children (set_children n
                       (Some (omap (filterIncludedFileAssets_obj fid) cs))))
    with (Some (omap (filterIncludedFileAssets_obj fid) cs))
    by (destruct n; reflexivity).
  simpl. rewrite HP. apply sublist_app; [reflexivity|]. clear Ec.
  induction IH as [|c cs Hc _ IHcs]; simpl; [constructor|].
  rewrite map_app, concat_app.
  destruct (filterIncludedFileAssets_obj fid c) as [c'|] eqn:E; simpl.
  - rewrite map_app, concat_app. apply sublist_app; [apply Hc; reflexivity|].
    exact IHcs.
  - apply sublist_inserts_l. exact IHcs.
Qed.

(** X5: [filterIncludedFileAssets] never adds or reorders anything: the uris
    of the filtered tree are, in pre-order, a subsequence of the uris of the
    original, and the notes [getAllNotes] collects from the filtered tree are
    a subsequence of those it collects from the original. *)
Theorem filterIncludedFileAssets_sublist (a r : asset) :
  filterIncludedFileAssets fid (Some a) = Some r ->
  map (fun x => uri (obj x)) (preorder r)
    `sublist_of` map (fun x => uri (obj x)) (preorder a)
  /\ getAllNotes (Some r) `sublist_of` getAllNotes (Some a).
Proof.
  simpl. intros H. split.
  - rewrite <- (concat_map_singleton (fun x => uri (obj x)) (preorder r)).
    rewrite <- (concat_map_singleton (fun x => uri (obj x)) (preorder a)).
    apply (filter_sublist (fun x => [uri (obj x)])); [|exact H].
    intros n cs. destruct n; reflexivity.
  - rewrite !getAllNotes_obj_preorder.
    apply (filter_sublist own_notes); [|exact H].
    intros n cs. destruct n; reflexivity.
Qed.

End MoreInclusion.

(** ** Names and extensions *)

Section Names.

Import JsString.

(** A string either has no character of a class or splits at the last one. *)
Lemma last_sep_decompose (p : ascii -> bool) (s : string) :
  free_of p s = true
  \/ exists a d b, p d = true /\ s = a +:+ String d b /\ free_of p b = true.
Proof.
  induction s as [|c r IH]; [left; reflexivity|].
  destruct IH as [Hr|(a & d & b & Hd & -> & Hb)].
  - destruct (p c) eqn:Hc.
    + right. exists "", c, r. auto.
    + left. simpl. rewrite Hc, Hr. reflexivity.
  - right. exists (String c a), d, b. auto.
Qed.

Lemma last_split_on_sep (p : ascii -> bool) (a b : string) (d : ascii) :
  p d = true -> free_of p b = true ->
  List.last (split_on p (a +:+ String d b)) "" = b.
Proof.
  intros Hd Hb. rewrite split_on_sep by exact Hd.
  rewrite last_app_nonempty by apply split_on_nonempty.
  rewrite split_on_free by exact Hb. reflexivity.
Qed.

Lemma free_of_weaken (p q : ascii -> bool) (s : string) :
  (forall c, p c = true -> q c = true) ->
  free_of q s = true -> free_of p s = true.
Proof.
  intros Hpq. induction s as [|c r IH]; [reflexivity|]. simpl.
  intros [Hc Hr]%andb_true_iff. apply negb_true_iff in Hc.
  destruct (p c) eqn:E; [rewrite (Hpq c E) in Hc; discriminate|].
  simpl. apply IH. exact Hr.
Qed.

Lemma free_of_append_r (p : ascii -> bool) (a b : string) :
  free_of p (a +:+ b) = true -> free_of p b = true.
Proof.
  induction a as [|c a IH]; [auto|]. rewrite append_cons. simpl.
  intros [_ H]%andb_true_iff. apply IH. exact H.
Qed.

Lemma last_split_free (p : ascii -> bool) (s : string) :
  free_of p (List.last (split_on p s) "") = true.
Proof.
  destruct (last_sep_decompose p s) as [H|(a & d & b & Hd & -> & Hb)].
  - rewrite split_on_free by exact H. exact H.
  - rewrite last_split_on_sep by assumption. exact Hb.
Qed.

(** The uri the naming functions work on. *)
Lemma getExtensionFromUri_string (u : string) :
  getExtensionFromUri (ItemString u)
  = let basename := List.last (split_on is_slash u) "" in
    if (String.eqb basename "" || (lastIndexOf basename "." <? 1))%bool
    then "" else slice_from basename (lastIndexOf basename "." + 1).
Proof.
  unfold getExtensionFromUri, str_truthy.
  destruct (String.eqb_spec u "") as [->|_]; reflexivity.
Qed.

Lemma is_sep_is_slash (c : ascii) : path.is_sep c = true -> is_slash c = true.
Proof. unfold path.is_sep, is_slash. intros ->. reflexivity. Qed.

Lemma last_slash_of_name (u : string) :
  List.last (split_on is_slash (List.last (split_on path.is_sep u) "")) ""
  = List.last (split_on is_slash u) "".
Proof.
  destruct (last_sep_decompose path.is_sep u) as [H|(a & d & b & Hd & -> & Hb)].
  - rewrite (split_on_free path.is_sep) by exact H. reflexivity.
  - rewrite (last_split_on_sep path.is_sep) by assumption.
    rewrite (split_on_sep is_slash) by (apply is_sep_is_slash; exact Hd).
    rewrite last_app_nonempty by apply split_on_nonempty. reflexivity.
Qed.

(** X6: [getAssetNameFromUri] answers what follows the last "/" of the URI
    (given as a string or through an object's [uri]): the whole URI when it
    has no "/", the empty string when it ends with one or is absent; the
    name never contains a "/", and a back slash is not a separator for
    it. *)
Theorem getAssetNameFromUri_spec :
  (forall it : item, free_of path.is_sep (getAssetNameFromUri it) = true)
  /\ (forall dir seg : string,
        free_of path.is_sep seg = true ->
        getAssetNameFromUri (ItemString (dir +:+ "/" +:+ seg)) = seg)
  /\ (forall u : string,
        free_of path.is_sep u = true -> getAssetNameFromUri (ItemString u) = u)
  /\ getAssetNameFromUri ItemAbsent = ""
  /\ (forall a : asset,
        getAssetNameFromUri (ItemObject a)
        = getAssetNameFromUri (ItemString (default "" (uri (obj a))))).
Proof.
  split; [|split; [|split; [|split]]].
  - intros it. unfold getAssetNameFromUri.
    destruct it as [|s|a]; try reflexivity.
    + destruct (str_truthy s); [apply last_split_free|reflexivity].
    + apply last_split_free.
  - intros dir seg Hseg. unfold getAssetNameFromUri, str_truthy.
    destruct (String.eqb_spec (dir +:+ "/" +:+ seg) "") as [E|_].
    { destruct dir; discriminate E. }
    simpl negb. cbv iota.
    change (dir +:+ "/" +:+ seg) with (dir +:+ String "/"%char seg).
    apply last_split_on_sep; [reflexivity|exact Hseg].
  - intros u Hu. unfold getAssetNameFromUri, str_truthy.
    destruct (String.eqb_spec u "") as [->|_]; [reflexivity|].
    simpl negb. cbv iota. rewrite split_on_free by exact Hu. reflexivity.
  - reflexivity.
  - intros [n]. unfold getAssetNameFromUri. simpl.
    destruct (uri n) as [u|]; simpl; [|reflexivity].
    unfold str_truthy. destruct (String.eqb_spec u ""); [subst|]; reflexivity.
Qed.

(** X7: the extension of a URI is the extension of its name:
    [getExtensionFromUri] of what [getAssetNameFromUri] answers is
    [getExtensionFromUri] of the URI, for every input. *)
Theorem getExtensionFromUri_of_name (it : item) :
  getExtensionFromUri (ItemString (getAssetNameFromUri it))
  = getExtensionFromUri it.
Proof.
  rewrite getExtensionFromUri_string.
  destruct it as [|s|a].
  - reflexivity.
  - unfold getAssetNameFromUri, str_truthy.
    destruct (String.eqb_spec s "") as [->|_]; [reflexivity|].
    simpl negb. cbv iota. rewrite last_slash_of_name.
    rewrite getExtensionFromUri_string. reflexivity.
  - unfold getAssetNameFromUri, getExtensionFromUri.
    rewrite last_slash_of_name. reflexivity.
Qed.

Lemma extension_shape (seg : string) :
  let e := if (String.eqb seg "" || (lastIndexOf seg "." <? 1))%bool then ""
           else slice_from seg (lastIndexOf seg "." + 1) in
  free_of is_dot e = true
  /\ (e <> "" -> exists stem, stem <> "" /\ seg = stem +:+ "." +:+ e).
Proof.
  destruct (last_sep_decompose is_dot seg) as [H|(a & d & b & Hd & -> & Hb)].
  - unfold lastIndexOf. rewrite lastIndexOf_from_free by exact H.
    rewrite orb_true_r. split; [reflexivity|]. intros N. contradiction.
  - assert (d = "."%char) as ->.
    { unfold is_dot in Hd. apply Ascii.eqb_eq in Hd. exact Hd. }
    unfold lastIndexOf. rewrite lastIndexOf_from_last by (try lia; exact Hb).
    rewrite Z.add_0_l. destruct a as [|c a].
    + simpl. split; [reflexivity|]. intros N. contradiction.
    + assert (Hlen : 1 <= len (String c a)) by (unfold len; simpl; lia).
      destruct (Z.ltb_spec (len (String c a)) 1); [lia|].
      rewrite slice_from_after.
      replace (String.eqb (String c a +:+ String "."%char b) "") with false
        by reflexivity.
      simpl orb. cbv iota. split; [exact Hb|].
      intros _. exists (String c a). split; [discriminate|reflexivity].
Qed.

Lemma slice_from_suffix (s : string) (k : Z) :
  exists pre, s = pre +:+ slice_from s k.
Proof.
  unfold slice_from. generalize (Z.to_nat (clamp s k)) as n. intros n.
  revert s. induction n as [|n IH]; intros s.
  - exists "". destruct s; reflexivity.
  - destruct s as [|c r]; [exists ""; reflexivity|].
    destruct (IH r) as [pre E]. exists (String c pre).
    rewrite append_cons. simpl. f_equal. exact E.
Qed.

(** X8: what [getExtensionFromUri] answers never contains a '.', a '/' or a
    back slash; and when it is not empty, the URI ends with a '.' followed by
    it, with something before the '.'. *)
Theorem getExtensionFromUri_shape :
  (forall it : item,
     free_of is_dot (getExtensionFromUri it) = true
     /\ free_of is_slash (getExtensionFromUri it) = true)
  /\ (forall u : string,
        getExtensionFromUri (ItemString u) <> "" ->
        exists pre, pre <> ""
                    /\ u = pre +:+ "." +:+ getExtensionFromUri (ItemString u)).
Proof.
  assert (Hstr : forall u : string,
     (free_of is_dot (getExtensionFromUri (ItemString u)) = true
      /\ free_of is_slash (getExtensionFromUri (ItemString u)) = true)
     /\ (getExtensionFromUri (ItemString u) <> "" ->
         exists pre, pre <> ""
           /\ u = pre +:+ "." +:+ getExtensionFromUri (ItemString u))).
  { intros u. rewrite getExtensionFromUri_string. cbv zeta.
    set (seg := List.last (split_on is_slash u) "").
    destruct (extension_shape seg) as [Hdot Hend]. cbv zeta in Hdot, Hend.
    assert (Hseg : free_of is_slash seg = true) by apply last_split_free.
    split; [split; [exact Hdot|]|].
    - destruct (String.eqb seg "" || (lastIndexOf seg "." <? 1))%bool;
        [reflexivity|].
      destruct (slice_from_suffix seg (lastIndexOf seg "." + 1)) as [pre E].
      rewrite E in Hseg. apply free_of_append_r in Hseg. exact Hseg.
    - intros Hne. destruct (Hend Hne) as (stem & Hstem & E).
      assert (Hu : exists dir, u = dir +:+ seg).
      { unfold seg.
        destruct (last_sep_decompose is_slash u)
          as [H|(a & d & b & Hd & -> & Hb)].
        - exists "". rewrite split_on_free by exact H. reflexivity.
        - exists (a +:+ String d ""). rewrite last_split_on_sep by assumption.
          rewrite append_assoc. reflexivity. }
      destruct Hu as [dir Hu]. exists (dir +:+ stem). split.
      + destruct dir; [exact Hstem|discriminate].
      + rewrite Hu at 1. rewrite E at 1. rewrite append_assoc. reflexivity. }
  split.
  - intros [|s|a].
    + split; reflexivity.
    + apply Hstr.
    + replace (getExtensionFromUri (ItemObject a))
        with (getExtensionFromUri (ItemString (default "" (uri (obj a))))).
      * apply Hstr.
      * destruct a as [n]. unfold getExtensionFromUri. simpl.
        destruct (uri n) as [u|]; simpl; [|reflexivity].
        unfold str_truthy.
        destruct (String.eqb_spec u ""); [subst|]; reflexivity.
  - intros u. apply Hstr.
Qed.

End Names.

(** ** Path conversion as a relabelling of the uris *)

Section Relabel.

Lemma map_uris_fields (f : option string -> option string) (a : asset) :
  payload (map_uris f a) = payload a
  /\ convertible (map_uris f a) = convertible a
  /\ uri (obj (map_uris f a))
     = (if convertible a then f (uri (obj a)) else uri (obj a))
  /\ kids (map_uris f a) = map (map_uris f) (kids a).
Proof.
  destruct a as [n]. unfold kids, payload. cbn [map_uris obj].
  destruct (convertible (Asset n)) eqn:Hc;
    destruct n as [u t nm at' md ns [cs|]]; repeat split; try reflexivity;
    exact Hc.
Qed.

Lemma map_uris_unfold (f : option string -> option string) (a : asset) :
  map_uris f a
  = Asset (set_children
             (if convertible a then set_uri (obj a) (f (uri (obj a)))
              else obj a)
             (option_map (map (map_uris f)) (children (obj a)))).
Proof.
  destruct a as [n]. cbn [map_uris obj].
  destruct (convertible (Asset n));
    destruct n as [u t nm at' md ns [cs|]]; reflexivity.
Qed.

Lemma map_ext_Forall {A B} (f g : A -> B) (l : list A) :
  Forall (fun x => f x = g x) l -> map f l = map g l.
Proof. induction 1 as [|x l Hx _ IH]; simpl; [|rewrite Hx, IH]; reflexivity. Qed.

Lemma map_uris_fusion (f g : option string -> option string) (a : asset) :
  map_uris g (map_uris f a) = map_uris (fun u => g (f u)) a.
Proof.
  induction a as [n IH] using asset_ind'.
  rewrite (map_uris_unfold g).
  destruct (map_uris_fields f (Asset n)) as (_ & Hc & Hu & _).
  rewrite Hc, Hu. rewrite !(map_uris_unfold _ (Asset n)). simpl obj.
  assert (Ek : option_map (map (map_uris g))
                 (children
                    (set_children
                       (if convertible (Asset n)
                        then set_uri n (f (uri n)) else n)
                       (option_map (map (map_uris f)) (children n))))
               = option_map (map (map_uris (fun u => g (f u)))) (children n)).
  { destruct (children n) as [cs|] eqn:Ec.
    - specialize (IH cs eq_refl).
      destruct (convertible (Asset n)); destruct n; simpl in *; subst;
        simpl; f_equal; rewrite map_map; apply map_ext_Forall; exact IH.
    - destruct (convertible (Asset n)); destruct n; simpl in *; subst;
        reflexivity. }
  rewrite Ek. destruct (convertible (Asset n)); destruct n; reflexivity.
Qed.

Lemma map_uris_ext (f g : option string -> option string) (a : asset) :
  Forall (fun x => convertible x = true ->
                   f (uri (obj x)) = g (uri (obj x))) (preorder a) ->
  map_uris f a = map_uris g a.
Proof.
  induction a as [n IH] using asset_ind'. intros H.
  rewrite preorder_unfold in H. apply Forall_cons in H as [Hn Hcs].
  rewrite !(map_uris_unfold _ (Asset n)). simpl obj in *.
  assert (Ek : option_map (map (map_uris f)) (children n)
               = option_map (map (map_uris g)) (children n)).
  { unfold kids in Hcs. simpl obj in Hcs.
    destruct (children n) as [cs|] eqn:Ec; [|reflexivity].
    specialize (IH cs eq_refl). simpl in *. f_equal. clear Ec.
    induction IH as [|c cs Hc _ IHcs]; [reflexivity|].
    simpl in Hcs. apply Forall_app in Hcs as [H1 H2].
    simpl. rewrite (Hc H1), (IHcs H2). reflexivity. }
  rewrite Ek. destruct (convertible (Asset n)); [|reflexivity].
  rewrite (Hn eq_refl). reflexivity.
Qed.

Lemma map_uris_id (a : asset) : map_uris (fun u => u) a = a.
Proof.
  induction a as [n IH] using asset_ind'. rewrite map_uris_unfold. simpl obj.
  assert (Ek : option_map (map (map_uris (fun u => u))) (children n)
               = children n).
  { destruct (children n) as [cs|] eqn:Ec; [|reflexivity].
    specialize (IH cs eq_refl). simpl. f_equal. clear Ec.
    induction IH as [|c cs Hc _ IHcs]; [reflexivity|].
    simpl. rewrite Hc, IHcs. reflexivity. }
  rewrite Ek. destruct (convertible (Asset n)); destruct n; reflexivity.
Qed.

Lemma with_null_uris_map_uris (a : asset) :
  with_null_uris a = map_uris (fun _ => None) a.
Proof.
  induction a as [n IH] using asset_ind'. rewrite map_uris_unfold.
  cbn [with_null_uris obj].
  destruct (children n) as [cs|] eqn:Ec.
  - specialize (IH cs eq_refl).
    rewrite (map_ext_Forall _ _ cs IH). reflexivity.
  - destruct (convertible (Asset n)); destruct n; simpl in *; subst;
      reflexivity.
Qed.


(** The conversion of a tree by a function that reads the [uri] only and
    does not throw on its nodes. *)
Lemma _recursivePathConversion_map_uris (pp : option string) (w : workerFn)
    (t : asset) :
  reads_uri_only w ->
  Forall (fun x => convertible x = true ->
                   exists r, w asset pp (Some (obj x)) = Ok r) (preorder t) ->
  _recursivePathConversion pp t w = Ok (map_uris (worker_on_uri w pp) t).
Proof.
  intros Hw. induction t as [n IH] using asset_ind'. intros H.
  rewrite preorder_unfold in H. apply Forall_cons in H as [Hn Hcs].
  rewrite _recursivePathConversion_unfold, map_uris_unfold. simpl obj in *.
  assert (E1 : (if convertible (Asset n)
                then u ← w asset pp (Some n); Ok (set_uri n u)
                else Ok n)
               = Ok (if convertible (Asset n)
                     then set_uri n (worker_on_uri w pp (uri n)) else n)).
  { destruct (convertible (Asset n)); [|reflexivity].
    destruct (Hn eq_refl) as [r Er]. unfold worker_on_uri.
    rewrite <- (Hw asset asset pp n
                  (Build_node (uri n) None None None None None None))
      by reflexivity.
    rewrite Er. reflexivity. }
  rewrite E1. cbn [mbind result_bind].
  unfold kids in Hcs. simpl obj in Hcs.
  destruct (children n) as [cs|] eqn:Ec.
  2:{ clear -Ec. destruct (convertible (Asset n)); destruct n; simpl in *;
        subst; reflexivity. }
  specialize (IH cs eq_refl). simpl in Hcs.
  assert (E2 : mapR (fun c => _recursivePathConversion pp c w) cs
               = Ok (map (map_uris (worker_on_uri w pp)) cs)).
  { clear Ec E1. induction IH as [|c cs Hc _ IHcs]; [reflexivity|].
    simpl in Hcs. apply Forall_app in Hcs as [H1 H2].
    simpl. rewrite (Hc H1). simpl. rewrite (IHcs H2). reflexivity. }
  rewrite E2. reflexivity.
Qed.

End Relabel.

(** ** Converting twice *)

Section Twice.

Import JsString.

Variable cwd : string.

(** What [path.resolve] answers from an absolute root is in normal form. *)
Lemma resolve_canonical (R u : string) :
  path.isAbsolute R = true ->
  exists r, path.resolve cwd [Some R; Some u] = Ok r /\ canonical r.
Proof.
  intros Habs. unfold path.resolve. simpl rev. simpl app.
  cbn [path.resolve_loop].
  rewrite (isAbsolute_nonempty R Habs), Habs.
  assert (Hclean : forall p,
            canonical ("/" +:+ path.normalizeString p false)).
  { intros p. unfold path.normalizeString, path.normalizeSegments.
    eexists. split; [|reflexivity].
    apply Forall_rev, fold_norm_keeps_clean;
      [apply split_on_pieces_free|constructor]. }
  destruct (String.eqb u ""); [|destruct (path.isAbsolute u)];
    cbn [mbind result_bind fst snd negb]; eexists; split;
    try reflexivity; apply Hclean.
Qed.

(** A path in normal form resolves to itself, whatever the root. *)
Lemma resolve_canonical_fixed (pp : option string) (c : string) :
  canonical c -> path.resolve cwd [pp; Some c] = Ok c.
Proof.
  intros (ts & Hts & ->). unfold path.resolve. simpl rev. simpl app.
  cbn [path.resolve_loop].
  change (String.eqb ("/" +:+ join "/" ts) "") with false.
  change (path.isAbsolute ("/" +:+ join "/" ts)) with true.
  cbn [mbind result_bind fst snd negb]. unfold path.normalizeString.
  change (("/" +:+ join "/" ts) +:+ "/" +:+ "")
    with (("/" +:+ join "/" ts) +:+ "/").
  rewrite normalizeSegments_trailing.
  rewrite root_segments_canonical by exact Hts. reflexivity.
Qed.

Lemma relativeToAbsolutePath_canonical (pp : option string) (n : node asset) :
  match uri n with
  | Some u => canonical u
  | None => True
  end ->
  relativeToAbsolutePath cwd pp (Some n) = Ok (uri n).
Proof.
  unfold relativeToAbsolutePath. destruct (uri n) as [u|]; [|reflexivity].
  intros Hc. rewrite resolve_canonical_fixed by exact Hc. reflexivity.
Qed.

(** X9: on a tree whose convertible nodes carry absolute URIs in normal
    form (or none), [recursiveRelativeToAbsolutePath] returns the tree as it
    is, whatever the project path. *)
Theorem recursiveRelativeToAbsolutePath_absolute_input
    (pp : option string) (t : asset) :
  Forall (fun x => convertible x = true ->
                   match uri (obj x) with
                   | Some u => canonical u
                   | None => True
                   end) (preorder t) ->
  recursiveRelativeToAbsolutePath cwd pp (Some t) = Ok (Some t).
Proof.
  intros H. unfold recursiveRelativeToAbsolutePath, recursivePathConversion.
  destruct pp as [p|]; [|reflexivity].
  rewrite _recursivePathConversion_map_uris.
  - rewrite (map_uris_ext _ (fun u => u)), map_uris_id; [reflexivity|].
    eapply Forall_impl; [exact H|]. intros x Hx Hc. specialize (Hx Hc).
    unfold worker_on_uri.
    rewrite (relativeToAbsolutePath_canonical (Some p)); [reflexivity|exact Hx].
  - apply reads_uri_only_relativeToAbsolutePath.
  - eapply Forall_impl; [exact H|]. intros x Hx Hc.
    destruct (named_conversions_return cwd p (obj x)) as [Hr _]. exact Hr.
Qed.

Lemma to_absolute_idempotent (R : string) (u : option string) :
  path.isAbsolute R = true ->
  worker_on_uri (@relativeToAbsolutePath cwd) (Some R)
    (worker_on_uri (@relativeToAbsolutePath cwd) (Some R) u)
  = worker_on_uri (@relativeToAbsolutePath cwd) (Some R) u.
Proof.
  intros Habs. destruct u as [u|]; [|reflexivity].
  destruct (resolve_canonical R u Habs) as (r & Er & Hr).
  assert (E : worker_on_uri (@relativeToAbsolutePath cwd) (Some R) (Some u)
              = Some r).
  { unfold worker_on_uri, relativeToAbsolutePath. simpl. rewrite Er.
    reflexivity. }
  rewrite E. unfold worker_on_uri, relativeToAbsolutePath. simpl.
  rewrite resolve_canonical_fixed by exact Hr. reflexivity.
Qed.

(** X10: with an absolute project root [recursiveRelativeToAbsolutePath] is
    idempotent on every tree: converting what it returned returns the same
    tree. *)
Theorem recursiveRelativeToAbsolutePath_idempotent (R : string) (t : asset) :
  path.isAbsolute R = true ->
  exists t1,
    recursiveRelativeToAbsolutePath cwd (Some R) (Some t) = Ok (Some t1)
    /\ recursiveRelativeToAbsolutePath cwd (Some R) (Some t1) = Ok (Some t1).
Proof.
  intros Habs.
  assert (Hret : forall a : asset,
            Forall (fun x => convertible x = true ->
                     exists r, relativeToAbsolutePath cwd (Some R)
                                 (Some (obj x)) = Ok r) (preorder a)).
  { intros a. apply Forall_forall. intros x _ _.
    destruct (named_conversions_return cwd R (obj x)) as [Hr _]. exact Hr. }
  exists (map_uris (worker_on_uri (@relativeToAbsolutePath cwd) (Some R)) t).
  unfold recursiveRelativeToAbsolutePath, recursivePathConversion.
  rewrite !_recursivePathConversion_map_uris
    by (try apply reads_uri_only_relativeToAbsolutePath; apply Hret).
  split; [reflexivity|]. cbn [mbind result_bind]. do 2 f_equal.
  rewrite map_uris_fusion. apply map_uris_ext, Forall_forall.
  intros x _ _. apply to_absolute_idempotent. exact Habs.
Qed.

Lemma join_split_id (s : string) : join "/" (split_on path.is_sep s) = s.
Proof.
  induction s as [|c r IH]; [reflexivity|]. simpl.
  pose proof (split_on_nonempty path.is_sep r) as Hne.
  destruct (path.is_sep c) eqn:Hc.
  - apply Ascii.eqb_eq in Hc. subst c.
    destruct (split_on path.is_sep r) as [|h t]; [contradiction|].
    change (join "/" ("" :: h :: t)) with ("" +:+ "/" +:+ join "/" (h :: t)).
    rewrite IH. reflexivity.
  - destruct (split_on path.is_sep r) as [|h t]; [contradiction|].
    destruct t as [|h' t'].
    + simpl in *. rewrite IH. reflexivity.
    + change (join "/" (String c h :: h' :: t'))
        with (String c (h +:+ "/" +:+ join "/" (h' :: t'))).
      change (join "/" (h :: h' :: t'))
        with (h +:+ "/" +:+ join "/" (h' :: t')) in IH.
      rewrite IH. reflexivity.
Qed.

Lemma join_not_absolute (l : list string) :
  Forall (fun s => s <> "" /\ free_of path.is_sep s = true) l ->
  path.isAbsolute (join "/" l) = false.
Proof.
  intros H. destruct H as [|x l [Hx Hf] _]; [reflexivity|].
  destruct x as [|c x]; [contradiction|].
  simpl in Hf. apply andb_true_iff in Hf as [Hc _]. apply negb_true_iff in Hc.
  destruct l; simpl; exact Hc.
Qed.

Lemma segments_good (p : string) :
  Forall (fun s => s <> "" /\ free_of path.is_sep s = true) (path.segments p).
Proof.
  unfold path.segments. apply Forall_forall. intros s Hs.
  apply list_elem_of_filter in Hs as [Hne Hin]. split; [exact Hne|].
  pose proof (split_on_pieces_free path.is_sep p) as Hall.
  rewrite Forall_forall in Hall. apply Hall. exact Hin.
Qed.

Lemma strip_common_Forall (P : string -> Prop) (fs ts : list string) :
  Forall P fs -> Forall P ts ->
  Forall P (path.strip_common fs ts).1 /\ Forall P (path.strip_common fs ts).2.
Proof.
  intros Hf. revert ts. induction Hf as [|f fs Hf0 Hfs IH]; intros ts Ht.
  - destruct ts; simpl; auto.
  - destruct Ht as [|t ts Ht0 Hts]; simpl; [auto|].
    destruct (String.eqb f t); [apply IH; exact Hts|]. simpl. auto.
Qed.

(** What [path.relative] answers is never an absolute path. *)
Lemma relative_not_absolute (R u r : string) :
  path.relative cwd (Some R) (Some u) = Ok r -> path.isAbsolute r = false.
Proof.
  unfold path.relative. destruct (String.eqb R u); [intros [= <-]; reflexivity|].
  destruct (path.resolve cwd [Some R]) as [f|]; [|discriminate].
  destruct (path.resolve cwd [Some u]) as [t|]; [|discriminate].
  cbn [mbind result_bind].
  destruct (String.eqb f t); intros [= <-]; [reflexivity|].
  unfold path.relative_resolved. apply join_not_absolute.
  destruct (strip_common_Forall
              (fun s => s <> "" /\ free_of path.is_sep s = true)
              (path.segments f) (path.segments t)
              (segments_good f) (segments_good t)) as [H1 H2].
  apply Forall_app. split; [|exact H2].
  apply Forall_forall. intros s Hs. apply list_elem_of_fmap in Hs as (y & -> & _).
  split; [discriminate|reflexivity].
Qed.

Lemma to_relative_twice (R : string) (u : option string) :
  worker_on_uri (@absoluteToRelativePath cwd) (Some R)
    (worker_on_uri (@absoluteToRelativePath cwd) (Some R) u) = None.
Proof.
  destruct u as [u|]; [|reflexivity].
  assert (E : worker_on_uri (@absoluteToRelativePath cwd) (Some R) (Some u)
              = None
              \/ exists r, worker_on_uri (@absoluteToRelativePath cwd) (Some R)
                             (Some u) = Some r
                           /\ path.isAbsolute r = false).
  { unfold worker_on_uri, absoluteToRelativePath. cbn [uri].
    destruct (path.isAbsolute u); [|left; reflexivity]. cbn [negb].
    destruct (path.relative cwd (Some R) (Some u)) as [r|e] eqn:E;
      [|left; reflexivity].
    cbn [mbind result_bind]. rewrite join_split_id. right. exists r.
    split; [reflexivity|]. exact (relative_not_absolute R u r E). }
  destruct E as [->|(r & -> & Hr)]; [reflexivity|].
  unfold worker_on_uri, absoluteToRelativePath. cbn [uri]. rewrite Hr.
  reflexivity.
Qed.

(** X11: converting to relative form twice loses the URIs: whatever the
    tree and the project path, [recursiveAbsoluteToRelativePath] applied to
    its own result returns the tree with the [uri] of every FILE, DIRECTORY
    and FOLDER node set to null. *)
Theorem recursiveAbsoluteToRelativePath_twice (R : string) (t : asset) :
  exists t1,
    recursiveAbsoluteToRelativePath cwd (Some R) (Some t) = Ok (Some t1)
    /\ recursiveAbsoluteToRelativePath cwd (Some R) (Some t1)
       = Ok (Some (with_null_uris t)).
Proof.
  assert (Hret : forall a : asset,
            Forall (fun x => convertible x = true ->
                     exists r, absoluteToRelativePath cwd (Some R)
                                 (Some (obj x)) = Ok r) (preorder a)).
  { intros a. apply Forall_forall. intros x _ _.
    destruct (named_conversions_return cwd R (obj x)) as [_ Hr]. exact Hr. }
  exists (map_uris (worker_on_uri (@absoluteToRelativePath cwd) (Some R)) t).
  unfold recursiveAbsoluteToRelativePath, recursivePathConversion.
  rewrite !_recursivePathConversion_map_uris
    by (try apply reads_uri_only_absoluteToRelativePath; apply Hret).
  split; [reflexivity|]. cbn [mbind result_bind]. do 2 f_equal.
  rewrite map_uris_fusion, with_null_uris_map_uris.
  apply map_uris_ext, Forall_forall. intros x _ _. apply to_relative_twice.
Qed.

End Twice.

(** ** What path conversion keeps *)

Section Keeps.







End Keeps.

(** ** The flat-array variant works in place *)

Section InPlaceArray.

Variable pp : option string.
Variable w : workerFn.

Lemma set_uri_twice {C} (o : node C) (u v : option string) :
  set_uri (set_uri o u) v = set_uri o v.
Proof. reflexivity. Qed.

Lemma _convertPathForArray_st_loop_spec (ls : list loc) :
  forall (s s' : store),
    _convertPathForArray_st_loop pp ls w s = Ret tt s' ->
    length s' = length s
    /\ (forall k : loc, k ∉ ls -> s' !! k = s !! k)
    /\ (forall (k : loc) (o' : node loc), s' !! k = Some o' ->
        exists o, s !! k = Some o /\ set_uri o' None = set_uri o None)
    /\ (NoDup ls ->
        forall (l : loc) (o : node loc), l ∈ ls -> s !! l = Some o ->
          if shouldConvertPath (Some o)
          then exists u, w loc pp (Some o) = Ok u
                         /\ s' !! l = Some (set_uri o u)
          else s' !! l = Some o).
Proof.
  induction ls as [|l rest IH]; intros s s'.
  - simpl. intros [= <-]. split; [reflexivity|]. split; [auto|].
    split; [eauto|]. intros _ l o Hl. inversion Hl.
  - cbn [_convertPathForArray_st_loop].
    destruct (s !! l) as [o0|] eqn:El; [|discriminate].
    set (s1 := if shouldConvertPath (Some o0)
               then match w loc pp (Some o0) with
                    | Ok u => <[l := set_uri o0 u]> s
                    | Throw _ => s
                    end
               else s).
    intros Hrun.
    assert (Hrun1 : _convertPathForArray_st_loop pp rest w s1 = Ret tt s').
    { unfold s1. destruct (shouldConvertPath (Some o0)); [|exact Hrun].
      destruct (w loc pp (Some o0)); [exact Hrun|discriminate]. }
    assert (Hlen1 : length s1 = length s).
    { unfold s1. destruct (shouldConvertPath (Some o0)); [|reflexivity].
      destruct (w loc pp (Some o0)); [apply length_insert|reflexivity]. }
    assert (Hne1 : forall k, k <> l -> s1 !! k = s !! k).
    { intros k Hk. unfold s1.
      destruct (shouldConvertPath (Some o0)); [|reflexivity].
      destruct (w loc pp (Some o0)); [|reflexivity].
      apply list_lookup_insert_ne. congruence. }
    assert (Hl1 : if shouldConvertPath (Some o0)
                  then exists u, w loc pp (Some o0) = Ok u
                                 /\ s1 !! l = Some (set_uri o0 u)
                  else s1 !! l = Some o0).
    { unfold s1. destruct (shouldConvertPath (Some o0)) eqn:Hs; [|exact El].
      destruct (w loc pp (Some o0)) as [u|e] eqn:Ew.
      - exists u. split; [reflexivity|].
        apply list_lookup_insert_eq. eapply lookup_lt_Some. exact El.
      - discriminate Hrun. }
    destruct (IH s1 s' Hrun1) as (Hlen & Hframe & Hsame & Hdone).
    split; [congruence|]. split; [|split].
    + intros k Hk. rewrite Hframe.
      * apply Hne1. intros ->. apply Hk. apply list_elem_of_here.
      * intros Hin. apply Hk. apply list_elem_of_further. exact Hin.
    + intros k o' Hk. destruct (Hsame k o' Hk) as (o1 & Ho1 & Eq1).
      destruct (decide (k = l)) as [Ekl|Hkl].
      * subst k. exists o0. split; [exact El|]. rewrite Eq1.
        destruct (shouldConvertPath (Some o0)).
        -- destruct Hl1 as (u & _ & Hu).
           assert (o1 = set_uri o0 u) as -> by congruence. reflexivity.
        -- assert (o1 = o0) as -> by congruence. reflexivity.
      * exists o1. split; [|exact Eq1]. rewrite <- Hne1; assumption.
    + intros Hnd l' o Hin Hlook. apply NoDup_cons in Hnd as [Hnotin Hnd].
      apply elem_of_cons in Hin as [->|Hin].
      * rewrite El in Hlook. injection Hlook as <-.
        rewrite (Hframe l Hnotin). exact Hl1.
      * assert (Hll : l' <> l) by (intros ->; contradiction).
        apply (Hdone Hnd l' o Hin). rewrite Hne1; assumption.
Qed.

(** X13: [_convertPathForArray] works on the caller's objects: when it
    returns, it returns the array it was given; the objects the array does
    not refer to are as they were; no object has gained or lost anything but
    its [uri] (the children are not visited); and, the array referring to
    each object once, every object in it that is a FILE, DIRECTORY or FOLDER
    now carries the uri the conversion function answered for it, the others
    being unchanged. *)
Theorem _convertPathForArray_st_in_place (ls : list loc) (s s' : store)
    (r : option (list loc)) :
  _convertPathForArray_st pp (Some ls) w s = Ret r s' ->
  r = Some ls
  /\ length s' = length s
  /\ (forall k : loc, k ∉ ls -> s' !! k = s !! k)
  /\ (forall (k : loc) (o' : node loc), s' !! k = Some o' ->
      exists o, s !! k = Some o /\ set_uri o' None = set_uri o None)
  /\ (NoDup ls ->
      forall (l : loc) (o : node loc), l ∈ ls -> s !! l = Some o ->
        if shouldConvertPath (Some o)
        then exists u, w loc pp (Some o) = Ok u
                       /\ s' !! l = Some (set_uri o u)
        else s' !! l = Some o).
Proof.
  unfold _convertPathForArray_st.
  destruct (_convertPathForArray_st_loop pp ls w s) as [[] s2|e s2|] eqn:E;
    try discriminate.
  intros [= <- <-]. split; [reflexivity|].
  apply _convertPathForArray_st_loop_spec. exact E.
Qed.

End InPlaceArray.

(** ** The ancestor list, whatever the arguments *)

Section Prefixes.

Import JsString.

Lemma take_drop (n : nat) (s : string) : s = take n s +:+ drop n s.
Proof.
  revert s. induction n as [|n IH]; intros [|c r]; try reflexivity.
  simpl. rewrite append_cons. f_equal. apply IH.
Qed.

Lemma length_drop (n : nat) (s : string) :
  String.length (drop n s) = (String.length s - n)%nat.
Proof. revert s. induction n as [|n IH]; intros [|c r]; simpl; auto. Qed.

(** Cutting at the last separator leaves a proper prefix. *)
Lemma cut_proper_prefix (cur : string) :
  lastIndexOf cur path.sep <> -1 ->
  exists d, d <> ""
            /\ cur = substring cur 0 (lastIndexOf cur path.sep) +:+ d.
Proof.
  intros Hne. unfold lastIndexOf, path.sep in *.
  destruct (lastIndexOf_from_bounds "/"%char cur 0) as [E|Hb]; [contradiction|].
  set (k := lastIndexOf_from cur "/" 0) in *.
  assert (Hsub : substring cur 0 k = take (Z.to_nat k) cur).
  { unfold substring, clamp. pose proof (len_nonneg cur).
    replace (Z.max 0 (Z.min 0 (len cur))) with 0 by lia.
    replace (Z.max 0 (Z.min k (len cur))) with k by lia.
    replace (Z.min 0 k) with 0 by lia. replace (Z.max 0 k) with k by lia.
    rewrite Z.sub_0_r. reflexivity. }
  exists (drop (Z.to_nat k) cur). split.
  - intros E. apply (f_equal String.length) in E. rewrite length_drop in E.
    unfold len in Hb. simpl in E. lia.
  - rewrite Hsub. apply take_drop.
Qed.

Lemma loop_proper_prefixes (a : string) (fuel : nat) :
  forall (cur r : string) (acc l : list string),
    findAllDescendantAssetsByUri_loop fuel cur r acc = Some l ->
    (exists d, a = cur +:+ d) ->
    Forall (fun x => exists d, d <> "" /\ a = x +:+ d) acc ->
    Forall (fun x => exists d, d <> "" /\ a = x +:+ d) l.
Proof.
  induction fuel as [|fuel IH]; intros cur r acc l; simpl.
  - destruct (String.eqb cur r); [|discriminate]. intros [= <-] _ H. exact H.
  - destruct (String.eqb cur r); [intros [= <-] _ H; exact H|].
    destruct (Z.eqb_spec (lastIndexOf cur path.sep) (-1)) as [|Hne];
      [intros [= <-] _ H; exact H|].
    intros Hrun [d Hd] Hacc.
    destruct (cut_proper_prefix cur Hne) as (d' & Hd' & Ecur).
    assert (Hnew : exists d0, d0 <> ""
              /\ a = substring cur 0 (lastIndexOf cur path.sep) +:+ d0).
    { exists (d' +:+ d). split.
      - destruct d'; [contradiction|discriminate].
      - rewrite <- append_assoc, <- Ecur. exact Hd. }
    apply (IH _ _ _ _ Hrun).
    + destruct Hnew as (d0 & _ & E0). eauto.
    + destruct (String.eqb _ _); [exact Hacc|].
      apply Forall_app. split; [exact Hacc|]. constructor; [exact Hnew|constructor].
Qed.

(** X14: whatever its arguments, every path [findAllDescendantAssetsByUri]
    returns is a proper prefix of [assetUri]: the asset itself is never in
    the list, nor is anything that is not a leading part of its URI. *)
Theorem findAllDescendantAssetsByUri_prefixes (a r : string)
    (l : list string) :
  findAllDescendantAssetsByUri (Some a) (Some r) = Some l ->
  Forall (fun x => exists d, d <> "" /\ a = x +:+ d) l.
Proof.
  unfold findAllDescendantAssetsByUri.
  destruct (_ && _)%bool; [|intros [= <-]; constructor].
  intros H. eapply loop_proper_prefixes; [exact H| |constructor].
  exists "". rewrite append_nil_r. reflexivity.
Qed.

End Prefixes.

(** ** The ignore list *)

Section Ignore.

Import JsString.

Variable PROJECT LOG BASE_FOLDER : string.





End Ignore.

(** ** Instances of the further properties *)

Lemma findChildAssetByUri_sound_witness :
  exists d,
    findDescendantAssetByUri (Some sample_project) (Some "/proj/a.txt")
    = Some d
    /\ uri (obj d) = Some "/proj/a.txt" /\ d ∈ preorder sample_project.
Proof.
  refine (proj2 (proj2 findChildAssetByUri_sound) sample_project
            "/proj/a.txt" (file "/proj/a.txt") _).
  reflexivity.
Defined.

Lemma findEntryPointAssets_preorder_witness :
  sample_script ∈ preorder sample_with_entry
  /\ is_entrypoint sample_script = true.
Proof.
  refine (proj2 (proj2 findEntryPointAssets_preorder) sample_with_entry
            sample_script _).
  apply list_elem_of_here.
Defined.


Lemma filterIncludedFileAssets_sublist_witness :
  map (fun x => uri (obj x)) (preorder (directory "/proj" [file "/proj/b.txt"]))
    `sublist_of` map (fun x => uri (obj x)) (preorder sample_mixed)
  /\ getAllNotes (Some (directory "/proj" [file "/proj/b.txt"]))
       `sublist_of` getAllNotes (Some sample_mixed).
Proof.
  refine (filterIncludedFileAssets_sublist sample_handler sample_mixed
            (directory "/proj" [file "/proj/b.txt"]) _).
  reflexivity.
Defined.

Lemma getAssetNameFromUri_spec_witness :
  getAssetNameFromUri (ItemString "/proj/src/main.py") = "main.py".
Proof.
  refine (proj1 (proj2 getAssetNameFromUri_spec) "/proj/src" "main.py" _).
  reflexivity.
Defined.

Lemma getExtensionFromUri_shape_witness :
  exists pre,
    pre <> ""
    /\ "a/b/file.tar.gz"
       = pre +:+ "." +:+ getExtensionFromUri (ItemString "a/b/file.tar.gz").
Proof.
  refine (proj2 getExtensionFromUri_shape "a/b/file.tar.gz" _).
  vm_compute. discriminate.
Defined.

Lemma recursiveRelativeToAbsolutePath_absolute_input_witness :
  recursiveRelativeToAbsolutePath sample_cwd (Some "/elsewhere")
    (Some sample_project) = Ok (Some sample_project).
Proof.
  refine (recursiveRelativeToAbsolutePath_absolute_input sample_cwd
            (Some "/elsewhere") sample_project _).
  repeat constructor.
  - intros _. exists ["proj"]. split; [repeat constructor|reflexivity].
  - intros _. exists ["proj"; "a.txt"]. split; [repeat constructor|reflexivity].
  - intros H. discriminate H.
  - intros _. exists ["proj"; "src"]. split; [repeat constructor|reflexivity].
  - intros _. exists ["proj"; "src"; "main.py"].
    split; [repeat constructor|reflexivity].
Defined.

Lemma recursiveRelativeToAbsolutePath_idempotent_witness :
  exists t1,
    recursiveRelativeToAbsolutePath sample_cwd (Some "/proj")
      (Some sample_relative) = Ok (Some t1)
    /\ recursiveRelativeToAbsolutePath sample_cwd (Some "/proj") (Some t1)
       = Ok (Some t1).
Proof.
  refine (recursiveRelativeToAbsolutePath_idempotent sample_cwd "/proj"
            sample_relative _).
  reflexivity.
Defined.


Lemma _convertPathForArray_st_in_place_witness :
  Some [1%nat; 0%nat] = Some [1%nat; 0%nat]
  /\ length sample_store_relative = length sample_store
  /\ (forall k : loc,
        k ∉ [1%nat; 0%nat] -> sample_store_relative !! k = sample_store !! k)
  /\ (forall (k : loc) (o' : node loc),
        sample_store_relative !! k = Some o' ->
        exists o, sample_store !! k = Some o
                  /\ set_uri o' None = set_uri o None)
  /\ (NoDup [1%nat; 0%nat] ->
      forall (l : loc) (o : node loc),
        l ∈ [1%nat; 0%nat] -> sample_store !! l = Some o ->
        if shouldConvertPath (Some o)
        then exists u,
               absoluteToRelativePath sample_cwd (Some "/proj") (Some o) = Ok u
               /\ sample_store_relative !! l = Some (set_uri o u)
        else sample_store_relative !! l = Some o).
Proof.
  refine (_convertPathForArray_st_in_place (Some "/proj")
            (@absoluteToRelativePath sample_cwd) [1%nat; 0%nat] sample_store
            sample_store_relative (Some [1%nat; 0%nat]) _).
  vm_compute. reflexivity.
Defined.

Lemma findAllDescendantAssetsByUri_prefixes_witness :
  Forall (fun x => exists d, d <> "" /\ "/proj/src/mod.py" = x +:+ d)
    ["/proj/src"; "/proj"].
Proof.
  refine (findAllDescendantAssetsByUri_prefixes "/proj/src/mod.py" "/pro"
            ["/proj/src"; "/proj"] _).
  vm_compute. reflexivity.
Defined.

